(** * EBWebEditor: the diagram model of [src/App.js]

    A shallow embedding of the [Canvas] component's state and of its event
    handlers ([onDrop], [onStartHandleClick], [onActivityClickAsTarget] and the
    surface's [onMouseMove] / [onMouseLeave]), followed by the properties of
    the grid placement and of the click-to-connect workflow.

    React state is modelled by explicit state passing: one record holds the
    two [useState] cells of [EBWebEditor] ([items], [connections]), the two of
    [Canvas] ([pendingSourceId], [previewPoint]) and the counter
    [nextIdRef.current].  A handler is a function from the state before the
    event to the state after it; the functional updates queued by a handler
    ([setItems (prev => ...)], [setConnections (conns => ...)]) are applied
    once each, in the order the handler issues them.

    Numbers are integers: ids come from a counter that starts at 1, grid
    coordinates from [Math.floor], and pointer positions and the surface's
    offset are taken in whole pixels. *)

From stdpp Require Import base numbers list strings gmap.

Local Open Scope Z_scope.

(** ** Constants (App.js, lines 3-5) *)

Definition GRID_SIZE : Z := 100.
Definition SURFACE_PX : Z := 2000.
Definition ACTIVITY_SIZE : Z := 50.

(** [ACTIVITIES] (lines 7-12): each entry is [{ type, emoji }], here the
    pair of the two. *)
Definition ACTIVITIES : list (string * string) :=
  [ ("Start", "🟢"); ("Stop", "🔴"); ("Sequence", "🔗"); ("Recv", "📥") ].

(** ** Data *)

(** An element of [items]: [{ id, type, col, row }] (line 112). *)
Record Item := mkItem { id : Z; type : string; col : Z; row : Z }.

(** An element of [connections]: [{ fromId, toId }] (line 157). *)
Record Conn := mkConn { fromId : Z; toId : Z }.

(** The preview point [{ x, y }] (line 177). *)
Record Point := mkPoint { px : Z; py : Z }.

(** The result of [snapToCell]: [{ col, row }] (line 96). *)
Record Cell := mkCell { ccol : Z; crow : Z }.

(** What a handler reads of [surfaceRef.current.getBoundingClientRect()]. *)
Record Rect := mkRect { left : Z; top : Z }.

(** The decoded drag payload.  The toolbox writes
    [{ type, source: "palette" }] (line 64), a placed activity writes
    [{ source: "canvas", id, type }] (line 233); every other JSON value has a
    [source] that is neither. *)
Inductive DragData :=
  | FromPalette (ty : string)
  | FromCanvas (dataId : Z) (ty : string)
  | OtherData.

Record State := mkState {
  items : list Item;
  connections : list Conn;
  nextId : Z;
  pendingSourceId : option Z;
  previewPoint : option Point
}.

(** [useState([])] twice, [useRef(1)], [useState(null)] twice. *)
Definition init : State :=
  {| items := []; connections := []; nextId := 1;
     pendingSourceId := None; previewPoint := None |}.

#[global] Instance Item_eq_dec : EqDecision Item.
Proof. solve_decision. Defined.
#[global] Instance Conn_eq_dec : EqDecision Conn.
Proof. solve_decision. Defined.
#[global] Instance Cell_eq_dec : EqDecision Cell.
Proof. solve_decision. Defined.

(** ** JavaScript helpers *)

(** [Array.prototype.findIndex]: the first index whose element satisfies
    [p]; [None] stands for [-1]. *)
Fixpoint findIndex {A} (p : A → bool) (l : list A) : option nat :=
  match l with
  | [] => None
  | a :: l' => if p a then Some 0%nat else S <$> findIndex p l'
  end.

(** Truthiness of [pendingSourceId], which is [null] or a number: [null] and
    [0] are falsy. *)
Definition truthy (p : option Z) : bool :=
  match p with
  | Some n => negb (n =? 0)
  | None => false
  end.

(** [snapToCell] (lines 91-97).  [Z.div] rounds towards minus infinity, as
    [Math.floor] of the quotient does. *)
Definition snapToCell (rect : Rect) (clientX clientY : Z) : option Cell :=
  let x := clientX - left rect in
  let y := clientY - top rect in
  if (x <? 0) || (y <? 0) then None
  else Some {| ccol := x / GRID_SIZE; crow := y / GRID_SIZE |}.

(** [(it) => it.col === cell.col && it.row === cell.row] *)
Definition atCell (cell : Cell) (it : Item) : bool :=
  (col it =? ccol cell) && (row it =? crow cell).

(** [(it) => it.id === data.id] *)
Definition hasId (i : Z) (it : Item) : bool := id it =? i.

(** [conns.filter((c) => c.fromId !== n && c.toId !== n)] (lines 115, 133). *)
Definition dropIncident (n : Z) (conns : list Conn) : list Conn :=
  filter (λ c, fromId c ≠ n ∧ toId c ≠ n) conns.

(** [{ ...it, col: cell.col, row: cell.row }] (lines 132, 136). *)
Definition moveTo (cell : Cell) (it : Item) : Item :=
  {| id := id it; type := type it; col := ccol cell; row := crow cell |}.

(** ** Handlers *)

(** The palette branch of [onDrop] (lines 108-120).  The index returned by
    [findIndex] is always in range, so [draft !! existingIdx] is [Some] and
    the in-place assignment [draft[existingIdx] = newItem] is [<[_:=_]>]. *)
Definition dropPalette (ty : string) (cell : Cell) (s : State) : State :=
  let draft := items s in
  let existingIdx := findIndex (atCell cell) draft in
  let newItem := {| id := nextId s; type := ty; col := ccol cell; row := crow cell |} in
  match existingIdx with
  | Some i =>
      match draft !! i with
      | Some existing =>
          {| items := <[i := newItem]> draft;
             connections := dropIncident (id existing) (connections s);
             nextId := nextId s + 1;
             pendingSourceId := pendingSourceId s;
             previewPoint := previewPoint s |}
      | None => s
      end
  | None =>
      {| items := draft ++ [newItem];
         connections := connections s;
         nextId := nextId s + 1;
         pendingSourceId := pendingSourceId s;
         previewPoint := previewPoint s |}
  end.

(** The canvas branch of [onDrop] (lines 121-139): [splice(existingIdx, 1)]
    is [delete], the assignment of the moved copy is [alter].  [plain] is the
    fall-through of lines 136-137.  Both indices come from [findIndex], so
    they are in range and the [None] case of [draft !! existingIdx] never
    runs. *)
Definition dropCanvas (dataId : Z) (cell : Cell) (s : State) : State :=
  let draft := items s in
  match findIndex (hasId dataId) draft with
  | None => s
  | Some movingIdx =>
      let plain :=
        {| items := alter (moveTo cell) movingIdx draft;
           connections := connections s;
           nextId := nextId s;
           pendingSourceId := pendingSourceId s;
           previewPoint := previewPoint s |} in
      match findIndex (atCell cell) draft with
      | Some existingIdx =>
          match draft !! existingIdx with
          | Some existing =>
              if negb (id existing =? dataId) then
                let removedId := id existing in
                let adjustedMovingIdx :=
                  if (existingIdx <? movingIdx)%nat then (movingIdx - 1)%nat
                  else movingIdx in
                {| items := alter (moveTo cell) adjustedMovingIdx
                              (delete existingIdx draft);
                   connections := dropIncident removedId (connections s);
                   nextId := nextId s;
                   pendingSourceId := pendingSourceId s;
                   previewPoint := previewPoint s |}
              else plain
          | None => plain
          end
      | None => plain
      end
  end.

(** [onDrop] (lines 99-140).  [raw = None] stands for a payload that is
    empty or that [JSON.parse] rejects. *)
Definition onDrop (raw : option DragData) (rect : Rect) (clientX clientY : Z)
    (s : State) : State :=
  match raw with
  | None => s
  | Some data =>
      match snapToCell rect clientX clientY with
      | None => s
      | Some cell =>
          match data with
          | FromPalette ty => dropPalette ty cell s
          | FromCanvas dataId _ => dropCanvas dataId cell s
          | OtherData => s
          end
      end
  end.

(** [onStartHandleClick] (lines 142-146). *)
Definition onStartHandleClick (i : Z) (s : State) : State :=
  {| items := items s;
     connections := connections s;
     nextId := nextId s;
     pendingSourceId := Some i;
     previewPoint := None |}.

(** [onActivityClickAsTarget] (lines 148-161). *)
Definition onActivityClickAsTarget (i : Z) (s : State) : State :=
  if negb (truthy (pendingSourceId s)) then s
  else
    match pendingSourceId s with
    | None => s
    | Some src =>
        if i =? src then
          {| items := items s;
             connections := connections s;
             nextId := nextId s;
             pendingSourceId := None;
             previewPoint := None |}
        else
          {| items := items s;
             connections :=
               filter (λ c, fromId c ≠ src) (connections s)
                 ++ [ {| fromId := src; toId := i |} ];
             nextId := nextId s;
             pendingSourceId := None;
             previewPoint := None |}
    end.

(** The surface's [onMouseMove] (lines 172-178); the surface is mounted
    whenever the handler fires, so [surfaceRef.current] is not null. *)
Definition onMouseMove (rect : Rect) (clientX clientY : Z) (s : State) : State :=
  if negb (truthy (pendingSourceId s)) then s
  else
    let x := Z.max 0 (Z.min SURFACE_PX (clientX - left rect)) in
    let y := Z.max 0 (Z.min SURFACE_PX (clientY - top rect)) in
    {| items := items s;
       connections := connections s;
       nextId := nextId s;
       pendingSourceId := pendingSourceId s;
       previewPoint := Some {| px := x; py := y |} |}.

(** The surface's [onMouseLeave] (line 179). *)
Definition onMouseLeave (s : State) : State :=
  if truthy (pendingSourceId s) then
    {| items := items s;
       connections := connections s;
       nextId := nextId s;
       pendingSourceId := pendingSourceId s;
       previewPoint := None |}
  else s.

(** ** Event sequences *)

Inductive Event :=
  | Drop (raw : option DragData) (rect : Rect) (clientX clientY : Z)
  | StartHandleClick (i : Z)
  | ActivityClick (i : Z)
  | MouseMove (rect : Rect) (clientX clientY : Z)
  | MouseLeave.

Definition step (s : State) (ev : Event) : State :=
  match ev with
  | Drop raw rect cx cy => onDrop raw rect cx cy s
  | StartHandleClick i => onStartHandleClick i s
  | ActivityClick i => onActivityClickAsTarget i s
  | MouseMove rect cx cy => onMouseMove rect cx cy s
  | MouseLeave => onMouseLeave s
  end.

Definition run (evs : list Event) (s : State) : State := fold_left step evs s.

(** The states the editor can be in: those some event sequence leads to from
    the empty diagram. *)
Inductive reachable : State → Prop :=
  | reachable_init : reachable init
  | reachable_step s ev : reachable s → reachable (step s ev).

(** A placement is a drop; the other events belong to the connection
    workflow. *)
Definition isPlacement (ev : Event) : bool :=
  match ev with
  | Drop _ _ _ _ => true
  | _ => false
  end.

(** An activity and its start handle are rendered once per element of
    [items] (lines 221-251), so a click handler only ever receives the id of
    an item that is on the canvas at that moment; likewise a canvas drag
    starts on a rendered activity. *)
Definition rendered (i : Z) (s : State) : bool :=
  bool_decide (i ∈ (id <$> items s)).

Definition enabled (s : State) (ev : Event) : bool :=
  match ev with
  | Drop (Some (FromCanvas i _)) _ _ _ => rendered i s
  | StartHandleClick i => rendered i s
  | ActivityClick i => rendered i s
  | _ => true
  end.

(** Every event of the sequence is one the user interface can deliver in the
    state it arrives in. *)
Fixpoint feasible (evs : list Event) (s : State) : bool :=
  match evs with
  | [] => true
  | ev :: evs' => enabled s ev && feasible evs' (step s ev)
  end.

(** ** Well-formedness of the node store *)

(** The grid cell an item occupies. *)
Definition cellOf (it : Item) : Cell := {| ccol := col it; crow := row it |}.

(** Ids are unique, positive and below the counter, which is positive too;
    no cell holds two items. *)
Record wf (s : State) : Prop := mkWf {
  wf_ids : NoDup (id <$> items s);
  wf_below : ∀ it, it ∈ items s → 0 < id it < nextId s;
  wf_next : 0 < nextId s;
  wf_cells : NoDup (cellOf <$> items s)
}.

(** Number of edges leaving node [n]. *)
Definition fanOut (n : Z) (conns : list Conn) : nat :=
  length (filter (λ c, fromId c = n) conns).

(** An edge whose two ends are on the canvas. *)
Definition validEdge (s : State) (c : Conn) : Prop :=
  fromId c ∈ (id <$> items s) ∧ toId c ∈ (id <$> items s).

(** A preview point is only there while a source is pending, and lies on
    the surface. *)
Definition previewOk (s : State) : Prop :=
  ∀ p, previewPoint s = Some p →
    truthy (pendingSourceId s) = true ∧
    0 ≤ px p ≤ SURFACE_PX ∧ 0 ≤ py p ≤ SURFACE_PX.

(** No two positions of [items] hold the same cell. *)
Definition gridExclusive (s : State) : Prop :=
  ∀ (i j : nat) (a b : Item),
    items s !! i = Some a → items s !! j = Some b →
    col a = col b → row a = row b → i = j.

(** ** What the canvas draws *)

(** [idToItem] (lines 80-84): a [Map] filled by [m.set(it.id, it)] for the
    items in order, so a later item overwrites an earlier one of the same
    id. *)
Definition idToItem (its : list Item) : gmap Z Item :=
  foldl (λ m it, <[id it := it]> m) ∅ its.

(** [getItemCenterPx] (lines 86-89). *)
Definition getItemCenterPx (it : Item) : Point :=
  {| px := col it * GRID_SIZE + GRID_SIZE / 2;
     py := row it * GRID_SIZE + GRID_SIZE / 2 |}.

(** The [left] and [top] of an activity's box (lines 223-224); the box is
    [ACTIVITY_SIZE] wide and high (lines 20-21). *)
Definition itemLeft (it : Item) : Z :=
  col it * GRID_SIZE + (GRID_SIZE - ACTIVITY_SIZE) / 2.
Definition itemTop (it : Item) : Z :=
  row it * GRID_SIZE + (GRID_SIZE - ACTIVITY_SIZE) / 2.

(** The surface pixel [(x, y)] lies on the box of [it]. *)
Definition onBox (it : Item) (x y : Z) : Prop :=
  itemLeft it ≤ x < itemLeft it + ACTIVITY_SIZE ∧
  itemTop it ≤ y < itemTop it + ACTIVITY_SIZE.

(** [const isArmed = pendingSourceId === it.id] (line 225). *)
Definition isArmed (s : State) (it : Item) : bool :=
  match pendingSourceId s with
  | Some src => src =? id it
  | None => false
  end.

(** The emoji shown on an activity (line 222):
    [ACTIVITIES.find((a) => a.type === it.type) || { emoji: "❓" }]. *)
Definition itemEmoji (it : Item) : string :=
  match List.find (λ a, String.eqb (fst a) (type it)) ACTIVITIES with
  | Some a => snd a
  | None => "❓"
  end.

(** An SVG [line] from [(x1, y1)] to [(x2, y2)]. *)
Record Line := mkLine { lineFrom : Point; lineTo : Point }.

(** The dashed line to the pointer (lines 199-207); [None] when nothing is
    drawn. *)
Definition previewLine (s : State) : option Line :=
  if truthy (pendingSourceId s) then
    match previewPoint s, pendingSourceId s with
    | Some b, Some src =>
        match idToItem (items s) !! src with
        | Some from => Some {| lineFrom := getItemCenterPx from; lineTo := b |}
        | None => None
        end
    | _, _ => None
    end
  else None.

(** The line of one connection (lines 209-218); [None] when either end is
    not in [idToItem]. *)
Definition connectionLine (m : gmap Z Item) (c : Conn) : option Line :=
  match m !! fromId c, m !! toId c with
  | Some from, Some to =>
      Some {| lineFrom := getItemCenterPx from; lineTo := getItemCenterPx to |}
  | _, _ => None
  end.

Definition connectionLines (s : State) : list (option Line) :=
  connectionLine (idToItem (items s)) <$> connections s.

(** The payloads the toolbox puts on a drag (line 64), one per entry of
    [ACTIVITIES]. *)
Definition toolboxPayloads : list DragData :=
  (λ a, FromPalette (fst a)) <$> ACTIVITIES.

(** A palette drop carries one of the toolbox's payloads. *)
Definition fromToolbox (ev : Event) : Prop :=
  match ev with
  | Drop (Some (FromPalette ty)) _ _ _ => FromPalette ty ∈ toolboxPayloads
  | _ => True
  end.

(** No edge joins a node to itself. *)
Definition noSelfEdge (conns : list Conn) : Prop :=
  ∀ c, c ∈ conns → fromId c ≠ toId c.

(** The [to] end of every edge is on the canvas. *)
Definition targetsExist (s : State) : Prop :=
  ∀ c, c ∈ connections s → toId c ∈ id <$> items s.

(** ** Concrete event sequences *)

(** A surface whose top-left corner is the viewport's, and drops in the
    middle of grid cell [(c, r)]. *)
Definition surfaceAtOrigin : Rect := {| left := 0; top := 0 |}.

Definition paletteDropAt (ty : string) (c r : Z) : Event :=
  Drop (Some (FromPalette ty)) surfaceAtOrigin
    (c * GRID_SIZE + GRID_SIZE / 2) (r * GRID_SIZE + GRID_SIZE / 2).

Definition canvasDropAt (i : Z) (ty : string) (c r : Z) : Event :=
  Drop (Some (FromCanvas i ty)) surfaceAtOrigin
    (c * GRID_SIZE + GRID_SIZE / 2) (r * GRID_SIZE + GRID_SIZE / 2).

(** Two activities, the second dropped on the first, then a third that is
    connected to and finally moved onto the second. *)
Definition placements : list Event :=
  [ paletteDropAt "Start" 1 1; paletteDropAt "Stop" 1 1;
    paletteDropAt "Recv" 3 1; canvasDropAt 3 "Recv" 1 1 ].

(** Two activities, the first one armed as a source. *)
Definition armedTwoNodes : list Event :=
  [ paletteDropAt "Start" 1 1; paletteDropAt "Recv" 3 1; StartHandleClick 1 ].

(** Two activities and an edge from the first to the second. *)
Definition connectedTwoNodes : list Event :=
  armedTwoNodes ++ [ ActivityClick 2 ].

(** Node 1 is armed as a source and then evicted by a palette drop on its
    cell, while node 2 stays on the canvas. *)
Definition armThenEvict : list Event :=
  [ paletteDropAt "Start" 1 1; paletteDropAt "Recv" 3 1;
    StartHandleClick 1; paletteDropAt "Stop" 1 1 ].

(** ... and then node 2 is clicked as the target. *)
Definition armEvictCommit : list Event := armThenEvict ++ [ ActivityClick 2 ].

(** A canvas holding nodes 5, 7 and 3, with an edge leaving each of 5
    and 7. *)
Definition threeNodes : State :=
  {| items := [ {| id := 3; type := "Recv"; col := 0; row := 0 |};
                {| id := 5; type := "Start"; col := 1; row := 0 |};
                {| id := 7; type := "Sequence"; col := 2; row := 0 |} ];
     connections := [ {| fromId := 5; toId := 7 |}; {| fromId := 7; toId := 5 |} ];
     nextId := 8;
     pendingSourceId := None;
     previewPoint := None |}.

(** * Auxiliary facts *)

Section FindIndex.
Context {A : Type} (p : A → bool).

Lemma findIndex_Some (l : list A) (i : nat) :
  findIndex p l = Some i →
  ∃ a, l !! i = Some a ∧ p a = true ∧
       ∀ j b, (j < i)%nat → l !! j = Some b → p b = false.
Proof.
  revert i. induction l as [|a l IH]; intros i; simpl; [done|].
  destruct (p a) eqn:Hpa.
  - intros [= <-]. exists a. split_and!; [done..|]. intros j b Hj. lia.
  - destruct (findIndex p l) as [k|] eqn:Hk; simpl; [|done].
    intros [= <-]. destruct (IH k eq_refl) as (b & Hb & Hpb & Hmin).
    exists b. split_and!; [done..|].
    intros [|j] c Hj; simpl.
    + by intros [= <-].
    + apply Hmin. lia.
Qed.

Lemma findIndex_None (l : list A) :
  findIndex p l = None → ∀ a, a ∈ l → p a = false.
Proof.
  induction l as [|b l IH]; simpl; intros Hf a Ha.
  - by apply elem_of_nil in Ha.
  - destruct (p b) eqn:Hpb; [done|].
    destruct (findIndex p l) eqn:Hk; simpl in Hf; [done|].
    apply elem_of_cons in Ha as [->|Ha]; [done|by apply IH].
Qed.

Lemma findIndex_elem_of (l : list A) (a : A) :
  a ∈ l → p a = true → is_Some (findIndex p l).
Proof.
  intros Ha Hpa. destruct (findIndex p l) eqn:Hf; [by eexists|].
  rewrite (findIndex_None l Hf a Ha) in Hpa. done.
Qed.

(** When at most one position satisfies [p], [findIndex] returns it. *)
Lemma findIndex_unique (l : list A) (i : nat) (a : A) :
  l !! i = Some a → p a = true →
  (∀ j b, l !! j = Some b → p b = true → j = i) →
  findIndex p l = Some i.
Proof.
  intros Hi Hpa Huniq.
  destruct (findIndex_elem_of l a) as [k Hk]; [by eapply list_elem_of_lookup_2|done|].
  destruct (findIndex_Some l k Hk) as (b & Hb & Hpb & _).
  by rewrite Hk, (Huniq k b Hb Hpb).
Qed.
End FindIndex.

Section NoDupUpdates.
Context {A : Type}.
Implicit Types l : list A.

Lemma elem_of_insert_inv l (i : nat) (x y : A) :
  y ∈ <[i:=x]> l → y = x ∨ y ∈ l.
Proof.
  revert i. induction l as [|a l IH]; intros [|i]; simpl; auto.
  - rewrite !elem_of_cons. tauto.
  - rewrite !elem_of_cons. intros [->|Hy]; [tauto|].
    destruct (IH i Hy); tauto.
Qed.

Lemma NoDup_insert_fresh l (i : nat) (x : A) :
  NoDup l → x ∉ l → NoDup (<[i:=x]> l).
Proof.
  intros Hnd. revert i.
  induction Hnd as [|a l Ha Hnd IH]; intros i Hx; [constructor|].
  apply not_elem_of_cons in Hx as [Hxa Hx].
  destruct i as [|i]; simpl.
  - by constructor.
  - constructor; [|by apply IH].
    intros Hin. apply elem_of_insert_inv in Hin as [->|Hin]; done.
Qed.

Lemma NoDup_delete l (i : nat) : NoDup l → NoDup (delete i l).
Proof. intros Hnd. eapply sublist_NoDup; [done|apply sublist_delete]. Qed.

Lemma NoDup_delete_not_elem_of l (i : nat) (x : A) :
  NoDup l → l !! i = Some x → x ∉ delete i l.
Proof.
  intros Hnd Hi Hin. apply list_elem_of_lookup in Hin as [j Hj].
  destruct (decide (j < i)%nat) as [Hlt|Hge].
  - rewrite list_lookup_delete_lt in Hj by done.
    pose proof (NoDup_lookup _ _ _ _ Hnd Hi Hj). lia.
  - rewrite list_lookup_delete_ge in Hj by lia.
    pose proof (NoDup_lookup _ _ _ _ Hnd Hi Hj). lia.
Qed.

Lemma elem_of_delete_inv l (i : nat) (x : A) : x ∈ delete i l → x ∈ l.
Proof. intros Hx. eapply elem_of_sublist; [done|apply sublist_delete]. Qed.
End NoDupUpdates.

Lemma atCell_true cell it : atCell cell it = true ↔ cellOf it = cell.
Proof.
  unfold atCell, cellOf. destruct cell as [c r]; simpl.
  rewrite andb_true_iff, !Z.eqb_eq. split; [intros [-> ->]; done|].
  intros [= -> ->]. done.
Qed.

Lemma atCell_false cell it : atCell cell it = false ↔ cellOf it ≠ cell.
Proof. rewrite <- atCell_true. destruct (atCell cell it); naive_solver. Qed.

Lemma hasId_true i it : hasId i it = true ↔ id it = i.
Proof. unfold hasId. apply Z.eqb_eq. Qed.

Lemma moveTo_same it : moveTo (cellOf it) it = it.
Proof. by destruct it. Qed.

Lemma fmap_id_alter_moveTo cell (i : nat) (l : list Item) :
  id <$> alter (moveTo cell) i l = id <$> l.
Proof.
  revert i. induction l as [|a l IH]; intros [|i]; simpl; try done.
  f_equal. apply IH.
Qed.

Lemma fmap_cellOf_alter_moveTo cell (i : nat) (l : list Item) :
  is_Some (l !! i) →
  cellOf <$> alter (moveTo cell) i l = <[i:=cell]> (cellOf <$> l).
Proof.
  revert i. induction l as [|a l IH]; intros [|i]; simpl.
  - by intros [? ?].
  - by intros [? ?].
  - intros _. f_equal. by destruct cell.
  - intros Hi. f_equal. by apply IH.
Qed.

Lemma elem_of_alter_inv {A} (f : A → A) (l : list A) (i : nat) (y : A) :
  y ∈ alter f i l → y ∈ l ∨ ∃ a, l !! i = Some a ∧ y = f a.
Proof.
  revert i. induction l as [|a l IH]; intros [|i]; simpl.
  - auto.
  - auto.
  - rewrite !elem_of_cons. intros [->|Hy]; eauto.
  - rewrite !elem_of_cons. intros [->|Hy]; [auto|].
    destruct (IH i Hy) as [?|(b & ? & ?)]; eauto.
Qed.

(** Under unique ids the item found by id is the only one with that id. *)
Lemma unique_id_index (l : list Item) (i j : nat) (a b : Item) :
  NoDup (id <$> l) → l !! i = Some a → l !! j = Some b → id a = id b → i = j.
Proof.
  intros Hnd Ha Hb Heq.
  eapply (NoDup_lookup (id <$> l)); [done| |].
  - rewrite list_lookup_fmap, Ha. done.
  - rewrite list_lookup_fmap, Hb. simpl. by rewrite Heq.
Qed.

Lemma unique_cell_index (l : list Item) (i j : nat) (a b : Item) :
  NoDup (cellOf <$> l) → l !! i = Some a → l !! j = Some b →
  cellOf a = cellOf b → i = j.
Proof.
  intros Hnd Ha Hb Heq.
  eapply (NoDup_lookup (cellOf <$> l)); [done| |].
  - rewrite list_lookup_fmap, Ha. done.
  - rewrite list_lookup_fmap, Hb. simpl. by rewrite Heq.
Qed.

(** ** The placement handlers keep the node store well-formed *)

Lemma dropPalette_wf ty cell s : wf s → wf (dropPalette ty cell s).
Proof.
  intros [Hids Hbelow Hnext Hcells]. unfold dropPalette.
  destruct (findIndex (atCell cell) (items s)) as [i|] eqn:Hfind.
  - destruct (findIndex_Some _ _ _ Hfind) as (ex & Hex & Hat & _).
    rewrite Hex. apply atCell_true in Hat.
    constructor; simpl.
    + rewrite list_fmap_insert. apply NoDup_insert_fresh; [done|]. simpl.
      intros (it & Hid & Hit)%list_elem_of_fmap.
      specialize (Hbelow it Hit). lia.
    + intros it [->|Hit]%elem_of_insert_inv; simpl; [lia|].
      specialize (Hbelow it Hit). lia.
    + lia.
    + rewrite list_fmap_insert. rewrite list_insert_id; [done|].
      rewrite list_lookup_fmap, Hex. simpl. rewrite Hat. by destruct cell.
  - pose proof (findIndex_None _ _ Hfind) as Hfree.
    constructor; simpl.
    + rewrite fmap_app. apply NoDup_app. split_and!; [done| |apply NoDup_singleton].
      intros n (it & -> & Hit)%list_elem_of_fmap. simpl.
      rewrite list_elem_of_singleton. specialize (Hbelow it Hit). lia.
    + intros it [Hit|Hit]%elem_of_app.
      * specialize (Hbelow it Hit). lia.
      * apply list_elem_of_singleton in Hit as ->. simpl. lia.
    + lia.
    + rewrite fmap_app. apply NoDup_app. split_and!; [done| |apply NoDup_singleton].
      intros c (it & -> & Hit)%list_elem_of_fmap. simpl.
      rewrite list_elem_of_singleton. intros Hc.
      specialize (Hfree it Hit). apply atCell_false in Hfree.
      apply Hfree. rewrite Hc. by destruct cell.
Qed.

(** After [splice(existingIdx, 1)] the moving item sits at the adjusted
    index (line 131). *)
Lemma lookup_delete_adjusted {A} (l : list A) (existingIdx movingIdx : nat) :
  existingIdx ≠ movingIdx →
  delete existingIdx l
    !! (if (existingIdx <? movingIdx)%nat then (movingIdx - 1)%nat else movingIdx)
  = l !! movingIdx.
Proof.
  intros Hne. destruct (Nat.ltb_spec existingIdx movingIdx) as [Hlt|Hge].
  - rewrite list_lookup_delete_ge by lia. f_equal. lia.
  - rewrite list_lookup_delete_lt by lia. done.
Qed.

(** Moving an item to a cell that is its own or that nobody occupies. *)
Lemma move_plain_wf cell (movingIdx : nat) m s :
  wf s → items s !! movingIdx = Some m →
  cellOf m = cell ∨ cell ∉ cellOf <$> items s →
  wf {| items := alter (moveTo cell) movingIdx (items s);
        connections := connections s;
        nextId := nextId s;
        pendingSourceId := pendingSourceId s;
        previewPoint := previewPoint s |}.
Proof.
  intros [Hids Hbelow Hnext Hcells] Hm Hcell. constructor; simpl.
  - by rewrite fmap_id_alter_moveTo.
  - intros it [Hit|(a & Ha & ->)]%elem_of_alter_inv; [by apply Hbelow|].
    simpl. apply Hbelow. by eapply list_elem_of_lookup_2.
  - done.
  - rewrite fmap_cellOf_alter_moveTo by (by eexists).
    destruct Hcell as [<-|Hfree].
    + rewrite list_insert_id; [done|]. by rewrite list_lookup_fmap, Hm.
    + by apply NoDup_insert_fresh.
Qed.

(** Moving an item onto the cell of another one, which is spliced out. *)
Lemma move_evict_wf cell (existingIdx movingIdx : nat) existing m s :
  wf s → items s !! movingIdx = Some m →
  items s !! existingIdx = Some existing → cellOf existing = cell →
  existingIdx ≠ movingIdx →
  wf {| items :=
          alter (moveTo cell)
            (if (existingIdx <? movingIdx)%nat then (movingIdx - 1)%nat
             else movingIdx)
            (delete existingIdx (items s));
        connections := dropIncident (id existing) (connections s);
        nextId := nextId s;
        pendingSourceId := pendingSourceId s;
        previewPoint := previewPoint s |}.
Proof.
  intros [Hids Hbelow Hnext Hcells] Hm Hex Hcell Hne.
  pose proof (lookup_delete_adjusted (items s) _ _ Hne) as Hadj.
  rewrite Hm in Hadj.
  constructor; simpl.
  - rewrite fmap_id_alter_moveTo, list_fmap_delete. by apply NoDup_delete.
  - intros it [Hit|(a & Ha & ->)]%elem_of_alter_inv.
    + by apply Hbelow, elem_of_delete_inv with existingIdx.
    + simpl. apply Hbelow. rewrite Hadj in Ha. injection Ha as <-.
      by eapply list_elem_of_lookup_2.
  - done.
  - rewrite fmap_cellOf_alter_moveTo by (by eexists).
    rewrite list_fmap_delete. apply NoDup_insert_fresh.
    + by apply NoDup_delete.
    + apply NoDup_delete_not_elem_of; [done|].
      by rewrite list_lookup_fmap, Hex; simpl; rewrite Hcell.
Qed.

Lemma dropCanvas_wf dataId cell s : wf s → wf (dropCanvas dataId cell s).
Proof.
  intros Hwf. unfold dropCanvas.
  destruct (findIndex (hasId dataId) (items s)) as [movingIdx|] eqn:Hmov; [|done].
  destruct (findIndex_Some _ _ _ Hmov) as (m & Hm & Hmid%hasId_true & _).
  destruct (findIndex (atCell cell) (items s)) as [existingIdx|] eqn:Hfind.
  - destruct (findIndex_Some _ _ _ Hfind) as (ex & Hex & Hat%atCell_true & _).
    rewrite Hex. destruct (Z.eqb_spec (id ex) dataId) as [Heq|Hneq]; simpl.
    + eapply move_plain_wf; [done..|]. left.
      assert (existingIdx = movingIdx) as ->
        by (eapply unique_id_index; [apply Hwf|done..|congruence]).
      congruence.
    + eapply move_evict_wf; [done..|]. congruence.
  - eapply move_plain_wf; [done..|]. right.
    intros (it & -> & Hit)%list_elem_of_fmap.
    pose proof (findIndex_None _ _ Hfind it Hit) as Hfree.
    by apply atCell_false in Hfree.
Qed.

Lemma step_wf s ev : wf s → wf (step s ev).
Proof.
  intros Hwf. destruct ev as [raw rect cx cy|i|i|rect cx cy|]; simpl.
  - unfold onDrop. destruct raw as [[ty|dataId ty|]|]; try done;
      destruct (snapToCell rect cx cy); try done.
    + by apply dropPalette_wf.
    + by apply dropCanvas_wf.
  - by destruct Hwf.
  - unfold onActivityClickAsTarget.
    destruct (truthy (pendingSourceId s)); simpl; [|done].
    destruct (pendingSourceId s) as [src|]; [|done].
    destruct (i =? src); by destruct Hwf.
  - unfold onMouseMove. destruct (truthy (pendingSourceId s)); simpl; [|done].
    by destruct Hwf.
  - unfold onMouseLeave. destruct (truthy (pendingSourceId s)); [|done].
    by destruct Hwf.
Qed.

Lemma init_wf : wf init.
Proof. constructor; simpl; [constructor| |lia|constructor]. by intros it ?%elem_of_nil. Qed.

Lemma reachable_wf s : reachable s → wf s.
Proof. induction 1; [apply init_wf|by apply step_wf]. Qed.

Lemma run_snoc evs ev s : run (evs ++ [ev]) s = step (run evs s) ev.
Proof. unfold run. by rewrite fold_left_app. Qed.

Lemma reachable_run evs s : reachable s → reachable (run evs s).
Proof.
  revert s. induction evs as [|ev evs IH]; intros s Hs; [done|].
  simpl. apply IH. by constructor.
Qed.

(** ** Edges: at most one per source *)

Lemma filter_none {A} (P : A → Prop) `{∀ x, Decision (P x)} (l : list A) :
  (∀ x, x ∈ l → ¬ P x) → filter P l = [].
Proof.
  induction l as [|a l IH]; intros Hno; [done|].
  rewrite filter_cons. destruct (decide (P a)) as [Ha|_].
  - destruct (Hno a); [left|done].
  - apply IH. intros x Hx. apply Hno. by right.
Qed.

Lemma NoDup_fmap_filter {A B} (f : A → B) (P : A → Prop)
    `{∀ x, Decision (P x)} (l : list A) :
  NoDup (f <$> l) → NoDup (f <$> filter P l).
Proof.
  intros Hnd. eapply sublist_NoDup; [done|].
  apply fmap_sublist, sublist_filter.
Qed.

Lemma fanOut_NoDup (n : Z) (conns : list Conn) :
  NoDup (fromId <$> conns) → (fanOut n conns ≤ 1)%nat.
Proof.
  unfold fanOut. induction conns as [|c conns IH]; simpl; [lia|].
  intros [Hc Hnd]%NoDup_cons. rewrite filter_cons.
  destruct (decide (fromId c = n)) as [<-|Hne]; [|by apply IH].
  rewrite filter_none; [simpl; lia|].
  intros c' Hc' Heq. apply Hc. rewrite <- Heq. by apply list_elem_of_fmap_2.
Qed.

(** The edge store after a commit from [src] to [t] (lines 155-158). *)
Lemma commit_NoDup (src t : Z) (conns : list Conn) :
  NoDup (fromId <$> conns) →
  NoDup (fromId <$> (filter (λ c, fromId c ≠ src) conns
                       ++ [ {| fromId := src; toId := t |} ])).
Proof.
  intros Hnd. rewrite fmap_app. apply NoDup_app. split_and!.
  - by apply NoDup_fmap_filter.
  - intros n (c & -> & [Hc _]%list_elem_of_filter)%list_elem_of_fmap.
    simpl. by rewrite list_elem_of_singleton.
  - apply NoDup_singleton.
Qed.

Lemma step_fanOut s ev :
  NoDup (fromId <$> connections s) → NoDup (fromId <$> connections (step s ev)).
Proof.
  intros Hnd. destruct ev as [raw rect cx cy|i|i|rect cx cy|]; simpl.
  - unfold onDrop. destruct raw as [[ty|dataId ty|]|]; try done;
      destruct (snapToCell rect cx cy) as [cell|]; try done.
    + unfold dropPalette. destruct (findIndex _ _) as [k|]; [|done].
      destruct (items s !! k); [|done]. by apply NoDup_fmap_filter.
    + unfold dropCanvas. destruct (findIndex (hasId _) _) as [k|]; [|done].
      destruct (findIndex (atCell _) _) as [k'|]; [|done].
      destruct (items s !! k') as [ex|]; [|done].
      destruct (negb _); [|done]. by apply NoDup_fmap_filter.
  - done.
  - unfold onActivityClickAsTarget.
    destruct (truthy (pendingSourceId s)); simpl; [|done].
    destruct (pendingSourceId s) as [src|]; [|done].
    destruct (i =? src); [done|]. by apply commit_NoDup.
  - unfold onMouseMove. by destruct (truthy (pendingSourceId s)).
  - unfold onMouseLeave. by destruct (truthy (pendingSourceId s)).
Qed.

Lemma reachable_fanOut s : reachable s → NoDup (fromId <$> connections s).
Proof. induction 1; [constructor|by apply step_fanOut]. Qed.

(** ** The preview point *)

Lemma step_previewOk s ev : previewOk s → previewOk (step s ev).
Proof.
  intros Hok. destruct ev as [raw rect cx cy|i|i|rect cx cy|]; simpl.
  - unfold onDrop. destruct raw as [[ty|dataId ty|]|]; try done;
      destruct (snapToCell rect cx cy) as [cell|]; try done.
    + unfold dropPalette. destruct (findIndex _ _) as [k|]; [|done].
      by destruct (items s !! k).
    + unfold dropCanvas. destruct (findIndex (hasId _) _) as [k|]; [|done].
      destruct (findIndex (atCell _) _) as [k'|]; [|done].
      destruct (items s !! k') as [ex|]; [|done].
      by destruct (negb _).
  - by intros p.
  - unfold onActivityClickAsTarget.
    destruct (truthy (pendingSourceId s)); simpl; [|done].
    destruct (pendingSourceId s) as [src|]; [|done].
    by destruct (i =? src); intros p.
  - unfold onMouseMove.
    destruct (truthy (pendingSourceId s)) eqn:Harmed; simpl; [|done].
    intros p [= <-]. simpl. unfold SURFACE_PX. split; [done|lia].
  - unfold onMouseLeave.
    destruct (truthy (pendingSourceId s)) eqn:Harmed; [by intros p|done].
Qed.

Lemma reachable_previewOk s : reachable s → previewOk s.
Proof. induction 1; [by intros p|by apply step_previewOk]. Qed.

(** ** Membership after an update of a duplicate-free list *)

Section NoDupMembership.
Context {A : Type}.
Implicit Types l : list A.

Lemma elem_of_insert_NoDup l (i : nat) (a x y : A) :
  NoDup l → l !! i = Some a →
  y ∈ <[i:=x]> l ↔ y = x ∨ (y ∈ l ∧ y ≠ a).
Proof.
  intros Hnd Hi. split.
  - intros [j Hj]%list_elem_of_lookup.
    destruct (decide (i = j)) as [<-|Hne].
    + rewrite list_lookup_insert_eq in Hj by (by eapply lookup_lt_Some).
      left. congruence.
    + rewrite list_lookup_insert_ne in Hj by done. right. split.
      * by eapply list_elem_of_lookup_2.
      * intros ->. apply Hne. by eapply NoDup_lookup.
  - intros [->|[[j Hj]%list_elem_of_lookup Hne]].
    + apply list_elem_of_insert. by eapply lookup_lt_Some.
    + apply list_elem_of_lookup. exists j.
      rewrite list_lookup_insert_ne; [done|]. intros <-. congruence.
Qed.

Lemma alter_as_insert (f : A → A) l (i : nat) (a : A) :
  l !! i = Some a → alter f i l = <[i:=f a]> l.
Proof.
  revert i. induction l as [|b l IH]; intros [|i]; simpl; try done.
  - by intros [= ->].
  - intros Hi. f_equal. by apply IH.
Qed.

Lemma elem_of_alter_NoDup (f : A → A) l (i : nat) (a y : A) :
  NoDup l → l !! i = Some a →
  y ∈ alter f i l ↔ y = f a ∨ (y ∈ l ∧ y ≠ a).
Proof.
  intros Hnd Hi. rewrite (alter_as_insert f l i a Hi).
  by apply elem_of_insert_NoDup.
Qed.

Lemma elem_of_delete_NoDup l (i : nat) (a y : A) :
  NoDup l → l !! i = Some a →
  y ∈ delete i l ↔ y ∈ l ∧ y ≠ a.
Proof.
  intros Hnd Hi. split.
  - intros Hy. split; [by eapply elem_of_delete_inv|].
    intros ->. by eapply NoDup_delete_not_elem_of.
  - intros [[j Hj]%list_elem_of_lookup Hne].
    apply list_elem_of_lookup.
    destruct (decide (j < i)%nat) as [Hlt|Hge].
    + exists j. by rewrite list_lookup_delete_lt.
    + assert (j ≠ i) by (intros ->; congruence).
      exists (j - 1)%nat. rewrite list_lookup_delete_ge by lia.
      rewrite <- Hj. f_equal. lia.
Qed.
End NoDupMembership.

Lemma wf_NoDup_items s : wf s → NoDup (items s).
Proof. intros Hwf. eapply NoDup_fmap_1, (wf_ids s Hwf). Qed.

(** Under [wf], looking an item up by its id or by its cell finds the
    position it is stored at. *)
Lemma wf_findIndex_id s (i : nat) m :
  wf s → items s !! i = Some m → findIndex (hasId (id m)) (items s) = Some i.
Proof.
  intros Hwf Hm. eapply findIndex_unique; [done|by apply hasId_true|].
  intros j b Hb Hid%hasId_true.
  eapply unique_id_index; [apply Hwf|done..].
Qed.

Lemma wf_findIndex_cell s (i : nat) m :
  wf s → items s !! i = Some m → findIndex (atCell (cellOf m)) (items s) = Some i.
Proof.
  intros Hwf Hm. eapply findIndex_unique; [done|by apply atCell_true|].
  intros j b Hb Hc%atCell_true.
  eapply unique_cell_index; [apply Hwf|done..].
Qed.

(** * The properties of the editor *)

Lemma rendered_elem_of i s : rendered i s = true → i ∈ id <$> items s.
Proof. unfold rendered. intros H. by apply bool_decide_eq_true in H. Qed.

Lemma wf_gridExclusive s : wf s → gridExclusive s.
Proof.
  intros Hwf i j a b Ha Hb Hcol Hrow.
  eapply unique_cell_index; [apply Hwf|done..|].
  unfold cellOf. by rewrite Hcol, Hrow.
Qed.

(** C3 (grid exclusivity): after every sequence of palette drops and canvas
    drops applied to the empty diagram, no two distinct positions of the node
    store hold items with the same [(col, row)] pair.  Every prefix of a
    sequence of placements is one, so this covers the state after each
    operation. *)
Theorem grid_exclusivity (evs : list Event) :
  forallb isPlacement evs = true → gridExclusive (run evs init).
Proof.
  intros _. apply wf_gridExclusive, reachable_wf, reachable_run. constructor.
Qed.

Lemma grid_exclusivity_witness : gridExclusive (run placements init).
Proof. apply (grid_exclusivity placements). reflexivity. Defined.

(** C4 (fan-out cap): in every reachable state at most one edge leaves any
    node [n]; and a commit from the armed source [src] to a target [t]
    (the source is truthy, that is, not [0], and [t] is another id) yields the
    old edges without those leaving [src], followed by the edge from [src]
    to [t]. *)
Theorem fan_out_cap (s : State) :
  reachable s →
  (∀ n, (fanOut n (connections s) ≤ 1)%nat) ∧
  (∀ src t, pendingSourceId s = Some src → src ≠ 0 → t ≠ src →
     connections (onActivityClickAsTarget t s)
     = filter (λ c, fromId c ≠ src) (connections s)
         ++ [ {| fromId := src; toId := t |} ]).
Proof.
  intros Hs. split.
  - intros n. by apply fanOut_NoDup, reachable_fanOut.
  - intros src t Hsrc Hnz Hne. unfold onActivityClickAsTarget.
    rewrite Hsrc. simpl.
    destruct (Z.eqb_spec src 0) as [?|_]; [done|]. simpl.
    destruct (Z.eqb_spec t src) as [?|_]; done.
Qed.

Lemma fan_out_cap_witness :
  (∀ n, (fanOut n (connections (run armedTwoNodes init)) ≤ 1)%nat) ∧
  connections (onActivityClickAsTarget 2 (run armedTwoNodes init))
  = filter (λ c, fromId c ≠ 1) (connections (run armedTwoNodes init))
      ++ [ {| fromId := 1; toId := 2 |} ].
Proof.
  destruct (fan_out_cap (run armedTwoNodes init)) as [Hcap Hcommit].
  - apply reachable_run. constructor.
  - split; [exact Hcap|]. apply Hcommit; [reflexivity|lia|lia].
Defined.

(** [onStartHandleClick] has no guard of its own: whatever id it receives,
    it stores that id as the pending source, clears the preview point and
    leaves the node store and the edge store alone. *)
Lemma armStart_unconditional (s : State) (n : Z) :
  items (onStartHandleClick n s) = items s ∧
  connections (onStartHandleClick n s) = connections s ∧
  pendingSourceId (onStartHandleClick n s) = Some n ∧
  previewPoint (onStartHandleClick n s) = None.
Proof. done. Qed.




(** Re-arming and committing from any state. *)
Lemma rearm_commit (s : State) (a b t : Z) :
  b ≠ 0 → t ≠ b →
  run [StartHandleClick a; StartHandleClick b; ActivityClick t] s
  = {| items := items s;
       connections := filter (λ c, fromId c ≠ b) (connections s)
                        ++ [ {| fromId := b; toId := t |} ];
       nextId := nextId s;
       pendingSourceId := None;
       previewPoint := None |}.
Proof.
  intros Hb Ht. simpl. unfold onActivityClickAsTarget. simpl.
  destruct (Z.eqb_spec b 0) as [?|_]; [done|]. simpl.
  destruct (Z.eqb_spec t b) as [?|_]; done.
Qed.

(** C9 (re-arm discards pending): in a state holding nodes 5, 7 and 3, the
    sequence armStart(5), armStart(7), clickTarget(3) replaces the edges
    leaving 7 by the single edge from 7 to 3; every edge of the result is an
    old one or that edge, so none leaving 5 is added; the node store is
    untouched and the workflow ends idle with no preview point. *)
Theorem rearm_discards_pending (s : State) :
  5 ∈ (id <$> items s) → 7 ∈ (id <$> items s) → 3 ∈ (id <$> items s) →
  let s' := run [StartHandleClick 5; StartHandleClick 7; ActivityClick 3] s in
  connections s'
  = filter (λ c, fromId c ≠ 7) (connections s) ++ [ {| fromId := 7; toId := 3 |} ] ∧
  (∀ c, c ∈ connections s' → c ∈ connections s ∨ c = {| fromId := 7; toId := 3 |}) ∧
  (∀ c, c ∈ connections s' → fromId c = 5 → c ∈ connections s) ∧
  items s' = items s ∧
  pendingSourceId s' = None ∧
  previewPoint s' = None.
Proof.
  intros _ _ _ s'. subst s'. rewrite rearm_commit by done. simpl.
  assert (∀ c, c ∈ filter (λ c, fromId c ≠ 7) (connections s)
                     ++ [ {| fromId := 7; toId := 3 |} ] →
               c ∈ connections s ∨ c = {| fromId := 7; toId := 3 |}) as Hin.
  { intros c [Hc|Hc]%elem_of_app.
    - apply list_elem_of_filter in Hc as [_ Hc]. by left.
    - apply list_elem_of_singleton in Hc. by right. }
  split_and!; try done.
  intros c Hc Hfrom. destruct (Hin c Hc) as [?| ->]; [done|]. simpl in Hfrom. lia.
Qed.

Lemma rearm_discards_pending_witness :
  connections (run [StartHandleClick 5; StartHandleClick 7; ActivityClick 3] threeNodes)
  = [ {| fromId := 5; toId := 7 |}; {| fromId := 7; toId := 3 |} ].
Proof.
  pose proof (rearm_discards_pending threeNodes) as H.
  destruct H as (Hconns & _).
  - refine (bool_decide_unpack _ _). vm_compute. exact I.
  - refine (bool_decide_unpack _ _). vm_compute. exact I.
  - refine (bool_decide_unpack _ _). vm_compute. exact I.
  - rewrite Hconns. reflexivity.
Defined.

(** C8 (self-drop idempotence): in a reachable state, dropping a node of the
    canvas on the cell it already occupies returns the state unchanged: node
    store, edge store, connection state (and the id counter). *)
Theorem self_drop_idempotent (s : State) (m : Item) (ty : string)
    (rect : Rect) (clientX clientY : Z) :
  reachable s → m ∈ items s →
  snapToCell rect clientX clientY = Some (cellOf m) →
  onDrop (Some (FromCanvas (id m) ty)) rect clientX clientY s = s.
Proof.
  intros Hwf%reachable_wf [i Hm]%list_elem_of_lookup Hsnap.
  unfold onDrop. rewrite Hsnap. unfold dropCanvas.
  rewrite (wf_findIndex_id s i m), (wf_findIndex_cell s i m) by done.
  rewrite Hm, Z.eqb_refl. simpl.
  rewrite (alter_as_insert _ _ _ _ Hm), moveTo_same, list_insert_id by done.
  by destruct s.
Qed.

Lemma self_drop_idempotent_witness :
  onDrop (Some (FromCanvas 2 "Recv")) surfaceAtOrigin 350 150 (run armedTwoNodes init)
  = run armedTwoNodes init.
Proof.
  apply (self_drop_idempotent (run armedTwoNodes init)
           {| id := 2; type := "Recv"; col := 3; row := 1 |}).
  - apply reachable_run. constructor.
  - refine (bool_decide_unpack _ _). vm_compute. exact I.
  - reflexivity.
Defined.

(** C10 (preview point): in every reachable state a preview point implies
    that a pending source is set (and truthy) and that both its coordinates
    lie in [[0, SURFACE_PX]]; a pointer move while no source is pending
    returns the state unchanged; and a pointer move while armed stores the
    offsets into the surface clamped to [[0, SURFACE_PX]]. *)
Theorem preview_point_invariant (s : State) :
  reachable s →
  (∀ p, previewPoint s = Some p →
     is_Some (pendingSourceId s) ∧ truthy (pendingSourceId s) = true ∧
     0 ≤ px p ≤ 2000 ∧ 0 ≤ py p ≤ 2000) ∧
  (∀ rect clientX clientY,
     truthy (pendingSourceId s) = false →
     onMouseMove rect clientX clientY s = s) ∧
  (∀ rect clientX clientY,
     truthy (pendingSourceId s) = true →
     ∃ p, previewPoint (onMouseMove rect clientX clientY s) = Some p ∧
          px p = Z.max 0 (Z.min 2000 (clientX - left rect)) ∧
          py p = Z.max 0 (Z.min 2000 (clientY - top rect)) ∧
          0 ≤ px p ≤ 2000 ∧ 0 ≤ py p ≤ 2000).
Proof.
  intros Hs. split_and!.
  - intros p Hp. destruct (reachable_previewOk s Hs p Hp) as (Harmed & Hx & Hy).
    unfold SURFACE_PX in *.
    assert (is_Some (pendingSourceId s))
      by (destruct (pendingSourceId s); [by eexists|done]).
    split_and!; (done || lia).
  - intros rect cx cy Hidle. unfold onMouseMove. by rewrite Hidle.
  - intros rect cx cy Harmed. unfold onMouseMove. rewrite Harmed. simpl.
    eexists. split; [done|]. simpl. unfold SURFACE_PX. lia.
Qed.

Lemma preview_point_invariant_witness :
  ∃ p, previewPoint (onMouseMove surfaceAtOrigin 2500 (-7) (run armedTwoNodes init))
       = Some p ∧ px p = 2000 ∧ py p = 0.
Proof.
  destruct (preview_point_invariant (run armedTwoNodes init)) as (_ & _ & Hmove).
  - apply reachable_run. constructor.
  - destruct (Hmove surfaceAtOrigin 2500 (-7)) as (p & Hp & Hx & Hy & _).
    + reflexivity.
    + exists p. split; [exact Hp|]. split; [exact Hx|exact Hy].
Defined.

(** C1, evaluated on the code: a sequence of events the interface can
    deliver (two palette drops, arming node 1, a palette drop on node 1's
    cell, a click on node 2) ends in a state whose only edge leaves id [1],
    which no node of the canvas has. *)
Theorem edge_validity_broken_by_evicted_source :
  feasible armEvictCommit init = true ∧
  items (run armEvictCommit init)
  = [ {| id := 3; type := "Stop"; col := 1; row := 1 |};
      {| id := 2; type := "Recv"; col := 3; row := 1 |} ] ∧
  connections (run armEvictCommit init) = [ {| fromId := 1; toId := 2 |} ] ∧
  ¬ validEdge (run armEvictCommit init) {| fromId := 1; toId := 2 |}.
Proof.
  split_and!; [reflexivity..|].
  intros [Hfrom _]. revert Hfrom.
  refine (bool_decide_unpack (_ ∉ _) _). vm_compute. exact I.
Qed.

(** C2, evaluated on the code: once node 1, the armed source, has been
    evicted, a click on node 2 does not look the source up and appends the
    edge from [1] to [2] to the empty edge store. *)
Theorem dangling_source_commit_adds_edge :
  pendingSourceId (run armThenEvict init) = Some 1 ∧
  (1 ∉ id <$> items (run armThenEvict init)) ∧
  (2 ∈ id <$> items (run armThenEvict init)) ∧
  connections (run armThenEvict init) = [] ∧
  connections (onActivityClickAsTarget 2 (run armThenEvict init))
  = [ {| fromId := 1; toId := 2 |} ].
Proof.
  split_and!; try reflexivity.
  - refine (bool_decide_unpack _ _). vm_compute. exact I.
  - refine (bool_decide_unpack _ _). vm_compute. exact I.
Qed.

(** ** The two branches of [onDrop], case by case *)

Lemma findIndex_free cell (l : list Item) :
  (∀ it, it ∈ l → cellOf it ≠ cell) → findIndex (atCell cell) l = None.
Proof.
  intros Hfree. destruct (findIndex (atCell cell) l) as [i|] eqn:Hfind; [|done].
  destruct (findIndex_Some _ _ _ Hfind) as (ex & Hex & Hat%atCell_true & _).
  destruct (Hfree ex); [by eapply list_elem_of_lookup_2|done].
Qed.

Lemma findIndex_no_id (n : Z) (l : list Item) :
  n ∉ id <$> l → findIndex (hasId n) l = None.
Proof.
  intros Hno. destruct (findIndex (hasId n) l) as [i|] eqn:Hfind; [|done].
  destruct (findIndex_Some _ _ _ Hfind) as (m & Hm & Hid%hasId_true & _).
  destruct Hno. rewrite <- Hid. by eapply list_elem_of_fmap_2, list_elem_of_lookup_2.
Qed.

Lemma dropPalette_occupied ty cell s (i : nat) occupant :
  wf s → items s !! i = Some occupant → cellOf occupant = cell →
  dropPalette ty cell s
  = {| items := <[i := {| id := nextId s; type := ty;
                          col := ccol cell; row := crow cell |}]> (items s);
       connections := dropIncident (id occupant) (connections s);
       nextId := nextId s + 1;
       pendingSourceId := pendingSourceId s;
       previewPoint := previewPoint s |}.
Proof.
  intros Hwf Hocc <-. unfold dropPalette.
  by rewrite (wf_findIndex_cell s i occupant), Hocc.
Qed.

Lemma dropPalette_free ty cell s :
  (∀ it, it ∈ items s → cellOf it ≠ cell) →
  dropPalette ty cell s
  = {| items := items s ++ [ {| id := nextId s; type := ty;
                                col := ccol cell; row := crow cell |} ];
       connections := connections s;
       nextId := nextId s + 1;
       pendingSourceId := pendingSourceId s;
       previewPoint := previewPoint s |}.
Proof. intros Hfree. unfold dropPalette. by rewrite findIndex_free. Qed.

Lemma dropCanvas_evict cell s (i j : nat) m occupant :
  wf s → items s !! i = Some m → items s !! j = Some occupant →
  cellOf occupant = cell → occupant ≠ m →
  dropCanvas (id m) cell s
  = {| items := alter (moveTo cell)
                  (if (j <? i)%nat then (i - 1)%nat else i)
                  (delete j (items s));
       connections := dropIncident (id occupant) (connections s);
       nextId := nextId s;
       pendingSourceId := pendingSourceId s;
       previewPoint := previewPoint s |}.
Proof.
  intros Hwf Hm Hocc <- Hne. unfold dropCanvas.
  rewrite (wf_findIndex_id s i m), (wf_findIndex_cell s j occupant), Hocc by done.
  destruct (Z.eqb_spec (id occupant) (id m)) as [Heq|_]; [|done].
  destruct Hne. assert (j = i) as ->
    by (eapply unique_id_index; [apply Hwf|done..]).
  congruence.
Qed.

Lemma dropCanvas_plain cell s (i : nat) m :
  wf s → items s !! i = Some m →
  (∀ it, it ∈ items s → cellOf it = cell → it = m) →
  dropCanvas (id m) cell s
  = {| items := alter (moveTo cell) i (items s);
       connections := connections s;
       nextId := nextId s;
       pendingSourceId := pendingSourceId s;
       previewPoint := previewPoint s |}.
Proof.
  intros Hwf Hm Honly. unfold dropCanvas.
  rewrite (wf_findIndex_id s i m) by done.
  destruct (findIndex (atCell cell) (items s)) as [j|] eqn:Hfind; [|done].
  destruct (findIndex_Some _ _ _ Hfind) as (ex & Hex & Hat%atCell_true & _).
  rewrite Hex, (Honly ex), Z.eqb_refl; [done| |done].
  by eapply list_elem_of_lookup_2.
Qed.

Lemma dropCanvas_frame dataId cell s :
  nextId (dropCanvas dataId cell s) = nextId s ∧
  pendingSourceId (dropCanvas dataId cell s) = pendingSourceId s ∧
  previewPoint (dropCanvas dataId cell s) = previewPoint s.
Proof.
  unfold dropCanvas. destruct (findIndex (hasId _) _) as [k|]; [|done].
  destruct (findIndex (atCell _) _) as [k'|]; [|done].
  destruct (items s !! k') as [ex|]; [|done].
  by destruct (negb _).
Qed.

(** C5 (palette placement): in a reachable state, a palette drop of kind
    [ty] that [snapToCell] maps to [cell] creates the node [newItem] at
    [cell] under the id [nextId s], which no node of the canvas has.  If a
    node [occupant] is at [cell], the new node takes its slot: the node store
    afterwards holds the new node and the old ones but the occupant, no node
    has the occupant's id any more, and the edge store is the old one without
    the edges that start or end at the occupant.  If the cell is free, the new
    node is appended and the edge store is unchanged. *)
Theorem palette_placement (s : State) (ty : string) (rect : Rect)
    (clientX clientY : Z) (cell : Cell) :
  reachable s →
  snapToCell rect clientX clientY = Some cell →
  let s' := onDrop (Some (FromPalette ty)) rect clientX clientY s in
  let newItem := {| id := nextId s; type := ty; col := ccol cell; row := crow cell |} in
  (nextId s ∉ id <$> items s) ∧
  newItem ∈ items s' ∧
  (∀ occupant, occupant ∈ items s → cellOf occupant = cell →
     (∃ i : nat, items s !! i = Some occupant ∧
                 items s' = <[i:=newItem]> (items s)) ∧
     (∀ it, it ∈ items s' ↔ it = newItem ∨ (it ∈ items s ∧ it ≠ occupant)) ∧
     (id occupant ∉ id <$> items s') ∧
     connections s'
     = filter (λ c, fromId c ≠ id occupant ∧ toId c ≠ id occupant) (connections s)) ∧
  ((∀ it, it ∈ items s → cellOf it ≠ cell) →
     items s' = items s ++ [newItem] ∧ connections s' = connections s).
Proof.
  intros Hwf%reachable_wf Hsnap s' newItem. subst s'.
  unfold onDrop. rewrite Hsnap.
  assert (nextId s ∉ id <$> items s) as Hfresh.
  { intros (it & Hid & Hit)%list_elem_of_fmap.
    pose proof (wf_below s Hwf it Hit). lia. }
  split_and!.
  - done.
  - unfold dropPalette.
    destruct (findIndex (atCell cell) (items s)) as [i|] eqn:Hfind.
    + destruct (findIndex_Some _ _ _ Hfind) as (ex & Hex & _).
      rewrite Hex. simpl. apply list_elem_of_insert. by eapply lookup_lt_Some.
    + simpl. apply elem_of_app. right. by apply list_elem_of_singleton.
  - intros occupant [i Hocc]%list_elem_of_lookup Hcell.
    rewrite (dropPalette_occupied ty cell s i occupant) by done. simpl.
    split_and!.
    + by exists i.
    + intros it. apply elem_of_insert_NoDup; [by apply wf_NoDup_items|done].
    + rewrite list_fmap_insert. simpl.
      rewrite (elem_of_insert_NoDup _ i (id occupant)).
      * intros [Heq|[_ Hne]]; [|done].
        assert (occupant ∈ items s) as Hin by (by eapply list_elem_of_lookup_2).
        pose proof (wf_below s Hwf occupant Hin). lia.
      * apply Hwf.
      * by rewrite list_lookup_fmap, Hocc.
    + done.
  - intros Hfree. by rewrite dropPalette_free.
Qed.

Lemma palette_placement_witness :
  (3 ∉ id <$> items (run armedTwoNodes init)) ∧
  (1 ∉ id <$> items (onDrop (Some (FromPalette "Stop")) surfaceAtOrigin 150 150
                       (run armedTwoNodes init))).
Proof.
  destruct (palette_placement (run armedTwoNodes init) "Stop" surfaceAtOrigin
              150 150 {| ccol := 1; crow := 1 |}) as (Hfresh & _ & Hocc & _).
  - apply reachable_run. constructor.
  - reflexivity.
  - split; [exact Hfresh|].
    destruct (Hocc {| id := 1; type := "Start"; col := 1; row := 1 |})
      as (_ & _ & Hgone & _).
    + refine (bool_decide_unpack _ _). vm_compute. exact I.
    + reflexivity.
    + exact Hgone.
Defined.

(** For a canvas drop of node [m] on [cell], either another node is at
    [cell] or nobody but [m] is. *)
Lemma canvas_target_cases cell s (i : nat) m :
  wf s → items s !! i = Some m →
  (∃ (j : nat) occupant,
     items s !! j = Some occupant ∧ cellOf occupant = cell ∧ occupant ≠ m) ∨
  (∀ it, it ∈ items s → cellOf it = cell → it = m).
Proof.
  intros Hwf Hm.
  destruct (findIndex (atCell cell) (items s)) as [j|] eqn:Hfind.
  - destruct (findIndex_Some _ _ _ Hfind) as (ex & Hex & Hat%atCell_true & _).
    destruct (decide (ex = m)) as [->|Hne]; [|left; by exists j, ex].
    right. intros it [k Hk]%list_elem_of_lookup Hc.
    assert (k = j) as -> by (eapply unique_cell_index; [apply Hwf|done..|congruence]).
    congruence.
  - right. intros it Hit Hc%atCell_true.
    by rewrite (findIndex_None _ _ Hfind it Hit) in Hc.
Qed.

(** C6 (canvas move): in a reachable state, a canvas drop of id [dataId]
    that [snapToCell] maps to [cell] returns the state unchanged when no node
    has that id.  When node [m] has it, the node store afterwards holds
    [moved], the node with [m]'s id and type whose [col] and [row] are those
    of [cell], and this is the only node with that id.  If another node
    [occupant] is at [cell], the occupant is spliced out and the edge store
    loses exactly the edges that start or end at the occupant; if no other
    node is at [cell], the edge store is unchanged.  In both cases every
    other node stays as it was; the id counter and the connection state are
    never touched. *)
Theorem canvas_move (s : State) (dataId : Z) (ty : string) (rect : Rect)
    (clientX clientY : Z) (cell : Cell) :
  reachable s →
  snapToCell rect clientX clientY = Some cell →
  let s' := onDrop (Some (FromCanvas dataId ty)) rect clientX clientY s in
  ((dataId ∉ id <$> items s) → s' = s) ∧
  (∀ m, m ∈ items s → id m = dataId →
     let moved :=
       {| id := id m; type := type m; col := ccol cell; row := crow cell |} in
     moved ∈ items s' ∧
     (∀ it, it ∈ items s' → id it = dataId →
            it = moved ∧ col it = ccol cell ∧ row it = crow cell) ∧
     (∀ occupant, occupant ∈ items s → cellOf occupant = cell → occupant ≠ m →
        (∃ i j : nat,
           items s !! i = Some m ∧ items s !! j = Some occupant ∧
           items s' = <[(if (j <? i)%nat then (i - 1)%nat else i) := moved]>
                        (delete j (items s))) ∧
        (∀ it, it ∈ items s' ↔
               it = moved ∨ (it ∈ items s ∧ it ≠ m ∧ it ≠ occupant)) ∧
        connections s'
        = filter (λ c, fromId c ≠ id occupant ∧ toId c ≠ id occupant)
            (connections s)) ∧
     ((∀ it, it ∈ items s → cellOf it = cell → it = m) →
        (∃ i : nat, items s !! i = Some m ∧
                    items s' = <[i:=moved]> (items s)) ∧
        (∀ it, it ∈ items s' ↔ it = moved ∨ (it ∈ items s ∧ it ≠ m)) ∧
        connections s' = connections s)) ∧
  nextId s' = nextId s ∧
  pendingSourceId s' = pendingSourceId s ∧
  previewPoint s' = previewPoint s.
Proof.
  intros Hwf%reachable_wf Hsnap s'. subst s'.
  unfold onDrop. rewrite Hsnap.
  pose proof (wf_NoDup_items s Hwf) as Hnd.
  split_and!; [| |apply dropCanvas_frame..].
  - intros Hno. unfold dropCanvas. by rewrite findIndex_no_id.
  - intros m [i Hm]%list_elem_of_lookup <-.
    change {| id := id m; type := type m; col := ccol cell; row := crow cell |}
      with (moveTo cell m).
    (* the two cases, with the moved node written [moveTo cell m] *)
    assert (∀ occupant, occupant ∈ items s → cellOf occupant = cell → occupant ≠ m →
              (∃ i j : nat,
                 items s !! i = Some m ∧ items s !! j = Some occupant ∧
                 items (dropCanvas (id m) cell s)
                 = <[(if (j <? i)%nat then (i - 1)%nat else i) := moveTo cell m]>
                     (delete j (items s))) ∧
              (∀ it, it ∈ items (dropCanvas (id m) cell s) ↔
                     it = moveTo cell m ∨ (it ∈ items s ∧ it ≠ m ∧ it ≠ occupant)) ∧
              connections (dropCanvas (id m) cell s)
              = filter (λ c, fromId c ≠ id occupant ∧ toId c ≠ id occupant)
                  (connections s)) as Hevict.
    { intros occupant [j Hocc]%list_elem_of_lookup Hcell Hne.
      rewrite (dropCanvas_evict cell s i j m occupant) by done. simpl.
      assert (j ≠ i) as Hji by (intros ->; congruence).
      pose proof (lookup_delete_adjusted (items s) j i Hji) as Hadj.
      rewrite Hm in Hadj.
      split_and!; [|
        |done].
      - exists i, j. split_and!; [done..|]. by apply alter_as_insert.
      - intros it.
        rewrite (elem_of_alter_NoDup _ _ _ m) by (by try apply NoDup_delete).
        rewrite (elem_of_delete_NoDup _ j occupant) by done.
        tauto. }
    assert ((∀ it, it ∈ items s → cellOf it = cell → it = m) →
              (∃ i : nat, items s !! i = Some m ∧
                          items (dropCanvas (id m) cell s)
                          = <[i:=moveTo cell m]> (items s)) ∧
              (∀ it, it ∈ items (dropCanvas (id m) cell s) ↔
                     it = moveTo cell m ∨ (it ∈ items s ∧ it ≠ m)) ∧
              connections (dropCanvas (id m) cell s) = connections s) as Hplain.
    { intros Honly.
      rewrite (dropCanvas_plain cell s i m) by done. simpl.
      split_and!; [| |done].
      - exists i. split; [done|]. by apply alter_as_insert.
      - intros it. by apply elem_of_alter_NoDup. }
    assert (∀ it, it ∈ items s → id it = id m → it = m) as Huniq.
    { intros it [k Hk]%list_elem_of_lookup Hid.
      assert (k = i) as -> by (eapply unique_id_index; [apply Hwf|done..]).
      congruence. }
    destruct (canvas_target_cases cell s i m Hwf Hm)
      as [(j & occ & Hocc & Hcell & Hne)|Honly].
    + destruct (Hevict occ) as (_ & Hiff & _);
        [by eapply list_elem_of_lookup_2|done..|].
      split_and!; [| |exact Hevict|exact Hplain].
      * apply Hiff. by left.
      * intros it Hit Hid. apply Hiff in Hit as [->|(Hit & Hnm & _)]; [done|].
        by destruct (Hnm (Huniq it Hit Hid)).
    + destruct (Hplain Honly) as (_ & Hiff & _).
      split_and!; [| |exact Hevict|exact Hplain].
      * apply Hiff. by left.
      * intros it Hit Hid. apply Hiff in Hit as [->|(Hit & Hnm)]; [done|].
        by destruct (Hnm (Huniq it Hit Hid)).
Qed.

Lemma canvas_move_witness :
  {| id := 2; type := "Recv"; col := 1; row := 1 |}
    ∈ items (onDrop (Some (FromCanvas 2 "Recv")) surfaceAtOrigin 150 150
               (run connectedTwoNodes init)) ∧
  connections (onDrop (Some (FromCanvas 2 "Recv")) surfaceAtOrigin 150 150
                 (run connectedTwoNodes init))
  = filter (λ c, fromId c ≠ 1 ∧ toId c ≠ 1) (connections (run connectedTwoNodes init)).
Proof.
  destruct (canvas_move (run connectedTwoNodes init) 2 "Recv" surfaceAtOrigin
              150 150 {| ccol := 1; crow := 1 |}) as (_ & Hmove & _).
  - apply reachable_run. constructor.
  - reflexivity.
  - destruct (Hmove {| id := 2; type := "Recv"; col := 3; row := 1 |})
      as (Hmoved & _ & Hevict & _).
    + refine (bool_decide_unpack _ _). vm_compute. exact I.
    + reflexivity.
    + split; [exact Hmoved|].
      destruct (Hevict {| id := 1; type := "Start"; col := 1; row := 1 |})
        as (_ & _ & Hconns).
      * refine (bool_decide_unpack _ _). vm_compute. exact I.
      * reflexivity.
      * intros Heq. inversion Heq.
      * exact Hconns.
Defined.

(** * Further properties of the source *)

(** ** Pixels and cells *)

Lemma div_GRID_SIZE_iff (x q : Z) :
  x / GRID_SIZE = q ↔ q * GRID_SIZE ≤ x < q * GRID_SIZE + GRID_SIZE.
Proof.
  unfold GRID_SIZE. split.
  - intros <-. pose proof (Z.div_mod x 100). pose proof (Z.mod_pos_bound x 100). lia.
  - intros Hq. symmetry. apply (Z.div_unique x 100 q (x - 100 * q)); lia.
Qed.

Lemma itemLeft_eq it : itemLeft it = col it * GRID_SIZE + 25.
Proof. reflexivity. Qed.

Lemma itemTop_eq it : itemTop it = row it * GRID_SIZE + 25.
Proof. reflexivity. Qed.

Lemma elem_of_dropPalette ty cell s it' :
  it' ∈ items (dropPalette ty cell s) →
  it' ∈ items s ∨
  it' = {| id := nextId s; type := ty; col := ccol cell; row := crow cell |}.
Proof.
  unfold dropPalette. destruct (findIndex _ _) as [k|]; simpl.
  - destruct (items s !! k); simpl; auto.
    intros [->|Hin]%elem_of_insert_inv; auto.
  - intros [Hin|Hin]%elem_of_app; [by left|].
    apply list_elem_of_singleton in Hin. by right.
Qed.

Lemma elem_of_dropCanvas dataId cell s it' :
  it' ∈ items (dropCanvas dataId cell s) →
  it' ∈ items s ∨ ∃ m, m ∈ items s ∧ it' = moveTo cell m.
Proof.
  assert (∀ (k : nat) (l : list Item),
            (∀ x, x ∈ l → x ∈ items s) →
            it' ∈ alter (moveTo cell) k l →
            it' ∈ items s ∨ ∃ m, m ∈ items s ∧ it' = moveTo cell m) as Hmoved.
  { intros k l Hsub [Hin|(a & Ha & ->)]%elem_of_alter_inv; [left; auto|].
    right. exists a. split; [|done]. by eapply Hsub, list_elem_of_lookup_2. }
  unfold dropCanvas. destruct (findIndex (hasId _) _) as [k|]; [|by left].
  destruct (findIndex (atCell _) _) as [k'|]; [|by apply Hmoved].
  destruct (items s !! k') as [ex|]; [|by apply Hmoved].
  destruct (negb _); [|by apply Hmoved]. simpl.
  apply Hmoved. intros x. apply elem_of_delete_inv.
Qed.

(** Where the items of the next state come from: an item is kept, moved by
    a canvas drop, or created under the counter's value by a palette drop. *)
Lemma step_items_origin s ev it' :
  it' ∈ items (step s ev) →
  it' ∈ items s ∨
  (∃ m raw rect cx cy cell,
     ev = Drop raw rect cx cy ∧ snapToCell rect cx cy = Some cell ∧
     m ∈ items s ∧ it' = moveTo cell m) ∨
  (∃ ty rect cx cy cell,
     ev = Drop (Some (FromPalette ty)) rect cx cy ∧
     snapToCell rect cx cy = Some cell ∧
     it' = {| id := nextId s; type := ty; col := ccol cell; row := crow cell |}).
Proof.
  destruct ev as [raw rect cx cy|i|i|rect cx cy|]; simpl.
  - unfold onDrop. destruct raw as [[ty|dataId ty|]|]; auto;
      destruct (snapToCell rect cx cy) as [cell|] eqn:Hsnap; auto.
    + intros [Hin| ->]%elem_of_dropPalette; [by left|].
      right; right. by exists ty, rect, cx, cy, cell.
    + intros [Hin|(m & Hm & ->)]%elem_of_dropCanvas; [by left|].
      right; left. by exists m, (Some (FromCanvas dataId ty)), rect, cx, cy, cell.
  - by left.
  - unfold onActivityClickAsTarget.
    destruct (truthy (pendingSourceId s)); simpl; [|by left].
    destruct (pendingSourceId s) as [src|]; [|by left].
    destruct (i =? src); by left.
  - unfold onMouseMove. destruct (truthy (pendingSourceId s)); by left.
  - unfold onMouseLeave. destruct (truthy (pendingSourceId s)); by left.
Qed.

Lemma snapToCell_nonneg rect cx cy cell :
  snapToCell rect cx cy = Some cell → 0 ≤ ccol cell ∧ 0 ≤ crow cell.
Proof.
  unfold snapToCell.
  destruct (Z.ltb_spec (cx - left rect) 0), (Z.ltb_spec (cy - top rect) 0);
    simpl; try done.
  intros [= <-]. simpl. unfold GRID_SIZE. split; apply Z.div_pos; lia.
Qed.

Lemma reachable_nonneg s it :
  reachable s → it ∈ items s → 0 ≤ col it ∧ 0 ≤ row it.
Proof.
  intros Hs. revert it. induction Hs as [|s ev Hs IH]; intros it Hit.
  - by apply elem_of_nil in Hit.
  - apply step_items_origin in Hit
      as [Hin|[(m & raw & rect & cx & cy & cell & _ & Hsnap & _ & ->)
              |(ty & rect & cx & cy & cell & _ & Hsnap & ->)]].
    + by apply IH.
    + simpl. by eapply snapToCell_nonneg.
    + simpl. by eapply snapToCell_nonneg.
Qed.

(** X1 ([snapToCell]): the result is [Some cell] exactly when both offsets
    into the surface are non-negative and the pixel lies in the
    [GRID_SIZE]-wide square of [cell]; so a pointer left of or above the
    surface gives no cell and every other one gives the cell containing
    it. *)
Theorem snapToCell_spec (rect : Rect) (clientX clientY : Z) (cell : Cell) :
  snapToCell rect clientX clientY = Some cell ↔
  0 ≤ clientX - left rect ∧ 0 ≤ clientY - top rect ∧
  ccol cell * GRID_SIZE ≤ clientX - left rect < ccol cell * GRID_SIZE + GRID_SIZE ∧
  crow cell * GRID_SIZE ≤ clientY - top rect < crow cell * GRID_SIZE + GRID_SIZE.
Proof.
  unfold snapToCell.
  destruct (Z.ltb_spec (clientX - left rect) 0), (Z.ltb_spec (clientY - top rect) 0);
    simpl; try (split; [done|lia]).
  rewrite <- !div_GRID_SIZE_iff. split.
  - intros [= <-]. simpl. split_and!; (done || lia).
  - intros (_ & _ & Hc & Hr). destruct cell. simpl in *. by rewrite Hc, Hr.
Qed.

(** X2 (cells are never negative): every node of a reachable state has
    [col >= 0] and [row >= 0]. *)
Theorem reachable_cells_nonneg (s : State) (it : Item) :
  reachable s → it ∈ items s → 0 ≤ col it ∧ 0 ≤ row it.
Proof. apply reachable_nonneg. Qed.

Lemma reachable_cells_nonneg_witness :
  0 ≤ 3 ∧ 0 ≤ 1.
Proof.
  apply (reachable_cells_nonneg (run armedTwoNodes init)
           {| id := 2; type := "Recv"; col := 3; row := 1 |}).
  - apply reachable_run. constructor.
  - refine (bool_decide_unpack _ _). vm_compute. exact I.
Defined.

(** X3 (a drop on an activity hits its cell): in a reachable state, every
    surface pixel on the box drawn for a node, and the centre returned by
    [getItemCenterPx], is mapped by [snapToCell] to that node's cell. *)
Theorem box_snaps_to_own_cell (s : State) (it : Item) (rect : Rect) (x y : Z) :
  reachable s → it ∈ items s → onBox it x y →
  snapToCell rect (left rect + x) (top rect + y) = Some (cellOf it) ∧
  onBox it (px (getItemCenterPx it)) (py (getItemCenterPx it)).
Proof.
  intros Hs Hit [Hx Hy].
  destruct (reachable_nonneg s it Hs Hit) as [Hcol Hrow].
  rewrite itemLeft_eq in Hx. rewrite itemTop_eq in Hy.
  unfold ACTIVITY_SIZE, GRID_SIZE in *. split.
  - unfold snapToCell.
    replace (left rect + x - left rect) with x by lia.
    replace (top rect + y - top rect) with y by lia.
    destruct (Z.ltb_spec x 0); [lia|]. destruct (Z.ltb_spec y 0); [lia|]. simpl.
    unfold cellOf. f_equal.
    f_equal; apply div_GRID_SIZE_iff; unfold GRID_SIZE; lia.
  - unfold onBox. rewrite itemLeft_eq, itemTop_eq. simpl.
    unfold ACTIVITY_SIZE, GRID_SIZE.
    change (100 / 2) with 50. lia.
Qed.

Lemma box_snaps_to_own_cell_witness :
  snapToCell {| left := 10; top := 20 |} (10 + 330) (20 + 174)
  = Some {| ccol := 3; crow := 1 |}.
Proof.
  apply (box_snaps_to_own_cell (run armedTwoNodes init)
           {| id := 2; type := "Recv"; col := 3; row := 1 |}
           {| left := 10; top := 20 |} 330 174).
  - apply reachable_run. constructor.
  - refine (bool_decide_unpack _ _). vm_compute. exact I.
  - unfold onBox. rewrite itemLeft_eq, itemTop_eq. simpl.
    unfold ACTIVITY_SIZE, GRID_SIZE. lia.
Defined.

(** X4 (activities never overlap): in a reachable state the boxes drawn for
    two distinct positions of the node store have no pixel in common. *)
Theorem boxes_disjoint (s : State) (i j : nat) (a b : Item) (x y : Z) :
  reachable s → items s !! i = Some a → items s !! j = Some b → i ≠ j →
  ¬ (onBox a x y ∧ onBox b x y).
Proof.
  intros Hs Ha Hb Hne [[Hax Hay] [Hbx Hby]].
  apply Hne, (wf_gridExclusive s (reachable_wf s Hs) i j a b Ha Hb).
  - rewrite !itemLeft_eq in *. unfold ACTIVITY_SIZE, GRID_SIZE in *. lia.
  - rewrite !itemTop_eq in *. unfold ACTIVITY_SIZE, GRID_SIZE in *. lia.
Qed.

Lemma boxes_disjoint_witness :
  ¬ (onBox {| id := 1; type := "Start"; col := 1; row := 1 |} 150 150 ∧
     onBox {| id := 2; type := "Recv"; col := 3; row := 1 |} 150 150).
Proof.
  apply (boxes_disjoint (run armedTwoNodes init) 0%nat 1%nat).
  - apply reachable_run. constructor.
  - reflexivity.
  - reflexivity.
  - lia.
Defined.

(** ** The id index and the lines drawn from it *)

Lemma idToItem_snoc (l : list Item) (a : Item) :
  idToItem (l ++ [a]) = <[id a := a]> (idToItem l).
Proof. unfold idToItem. by rewrite foldl_snoc. Qed.

Lemma idToItem_is_Some (l : list Item) (i : Z) :
  is_Some (idToItem l !! i) ↔ i ∈ id <$> l.
Proof.
  induction l as [|a l IH] using rev_ind.
  - unfold idToItem. simpl. rewrite lookup_empty. split.
    + by intros [? ?].
    + by intros ?%elem_of_nil.
  - rewrite idToItem_snoc, lookup_insert_is_Some', IH, fmap_app, elem_of_app.
    simpl. rewrite list_elem_of_singleton. intuition congruence.
Qed.

Lemma idToItem_Some_elem (l : list Item) (i : Z) (it : Item) :
  idToItem l !! i = Some it → it ∈ l ∧ id it = i.
Proof.
  induction l as [|a l IH] using rev_ind.
  - unfold idToItem. simpl. by rewrite lookup_empty.
  - rewrite idToItem_snoc, lookup_insert_Some, elem_of_app, list_elem_of_singleton.
    intros [[<- <-]|[_ Hl]]; [by auto|]. destruct (IH Hl). auto.
Qed.

Lemma idToItem_NoDup (l : list Item) (it : Item) :
  NoDup (id <$> l) → it ∈ l → idToItem l !! id it = Some it.
Proof.
  induction l as [|a l IH] using rev_ind; intros Hnd Hit.
  - by apply elem_of_nil in Hit.
  - rewrite fmap_app in Hnd. apply NoDup_app in Hnd as (Hnd & Hdisj & _).
    rewrite idToItem_snoc, lookup_insert_Some.
    apply elem_of_app in Hit as [Hit|Hit].
    + right. split; [|by apply IH]. intros Heq.
      apply (Hdisj (id it)); [by apply list_elem_of_fmap_2|].
      simpl. rewrite Heq. by apply list_elem_of_singleton.
    + apply list_elem_of_singleton in Hit as ->. by left.
Qed.

Lemma getItemCenterPx_inj a b :
  getItemCenterPx a = getItemCenterPx b → cellOf a = cellOf b.
Proof.
  unfold getItemCenterPx, cellOf, GRID_SIZE. intros [= Hx Hy].
  f_equal; lia.
Qed.

(** ** Edges never join a node to itself *)

Lemma dropIncident_subset n conns c : c ∈ dropIncident n conns → c ∈ conns.
Proof. unfold dropIncident. by intros [_ ?]%list_elem_of_filter. Qed.

Lemma step_connections_origin s ev c :
  c ∈ connections (step s ev) →
  c ∈ connections s ∨
  ∃ src i, ev = ActivityClick i ∧ pendingSourceId s = Some src ∧
           src ≠ 0 ∧ i ≠ src ∧ c = {| fromId := src; toId := i |}.
Proof.
  destruct ev as [raw rect cx cy|i|i|rect cx cy|]; simpl.
  - unfold onDrop. destruct raw as [[ty|dataId ty|]|]; auto;
      destruct (snapToCell rect cx cy) as [cell|]; auto.
    + unfold dropPalette. destruct (findIndex _ _) as [k|]; auto.
      destruct (items s !! k); auto. simpl. intros ?%dropIncident_subset. auto.
    + unfold dropCanvas. destruct (findIndex (hasId _) _) as [k|]; auto.
      destruct (findIndex (atCell _) _) as [k'|]; auto.
      destruct (items s !! k') as [ex|]; auto.
      destruct (negb _); auto. simpl. intros ?%dropIncident_subset. auto.
  - auto.
  - unfold onActivityClickAsTarget.
    destruct (pendingSourceId s) as [src|] eqn:Hsrc; simpl; auto.
    destruct (Z.eqb_spec src 0) as [?|Hnz]; simpl; auto.
    destruct (Z.eqb_spec i src) as [?|Hne]; simpl; auto.
    intros [Hin|Hin]%elem_of_app.
    + apply list_elem_of_filter in Hin as [_ ?]. auto.
    + apply list_elem_of_singleton in Hin. right. by exists src, i.
  - unfold onMouseMove. destruct (truthy (pendingSourceId s)); auto.
  - unfold onMouseLeave. destruct (truthy (pendingSourceId s)); auto.
Qed.

Lemma reachable_noSelfEdge s : reachable s → noSelfEdge (connections s).
Proof.
  induction 1 as [|s ev Hs IH]; intros c Hc.
  - by apply elem_of_nil in Hc.
  - apply step_connections_origin in Hc
      as [Hc|(src & i & _ & _ & _ & Hne & ->)]; [by apply IH|].
    simpl. congruence.
Qed.

(** X5 (the id index): in a reachable state [idToItem] maps an id to an
    item exactly when that item is in the node store under that id. *)
Theorem idToItem_lookup (s : State) (i : Z) (it : Item) :
  reachable s →
  idToItem (items s) !! i = Some it ↔ it ∈ items s ∧ id it = i.
Proof.
  intros Hwf%reachable_wf. split.
  - apply idToItem_Some_elem.
  - intros [Hit <-]. apply idToItem_NoDup; [apply Hwf|done].
Qed.

Lemma idToItem_lookup_witness :
  idToItem (items (run armedTwoNodes init)) !! 2
  = Some {| id := 2; type := "Recv"; col := 3; row := 1 |}.
Proof.
  apply (idToItem_lookup (run armedTwoNodes init)).
  - apply reachable_run. constructor.
  - split; [|reflexivity].
    refine (bool_decide_unpack _ _). vm_compute. exact I.
Defined.

(** X6 (ghost edges are not drawn): in any state the canvas draws a line for
    a connection exactly when both its ends are ids of nodes in the node
    store. *)
Theorem connection_drawn_iff_valid (s : State) (c : Conn) :
  is_Some (connectionLine (idToItem (items s)) c) ↔ validEdge s c.
Proof.
  unfold validEdge. rewrite <- !idToItem_is_Some. unfold connectionLine.
  destruct (idToItem (items s) !! fromId c), (idToItem (items s) !! toId c);
    split; try (by intros [? ?]); try (by intros [[? ?] [? ?]]).
Qed.

(** X7 (no self-loops): in every reachable state every edge has different
    [fromId] and [toId]. *)
Theorem no_self_edges (s : State) (c : Conn) :
  reachable s → c ∈ connections s → fromId c ≠ toId c.
Proof. intros Hs. by apply reachable_noSelfEdge. Qed.

Lemma no_self_edges_witness : (1 : Z) ≠ 2.
Proof.
  apply (no_self_edges (run connectedTwoNodes init) {| fromId := 1; toId := 2 |}).
  - apply reachable_run. constructor.
  - refine (bool_decide_unpack _ _). vm_compute. exact I.
Defined.

(** X8 (drawn connections have length): in a reachable state the line drawn
    for an edge of the edge store starts at the centre of its source node,
    ends at the centre of its target node, and the two centres differ. *)
Theorem connection_line_endpoints (s : State) (c : Conn) (ln : Line) :
  reachable s → c ∈ connections s →
  connectionLine (idToItem (items s)) c = Some ln →
  ∃ a b, a ∈ items s ∧ b ∈ items s ∧ id a = fromId c ∧ id b = toId c ∧
         lineFrom ln = getItemCenterPx a ∧ lineTo ln = getItemCenterPx b ∧
         lineFrom ln ≠ lineTo ln.
Proof.
  intros Hs Hc. pose proof (reachable_wf s Hs) as Hwf. unfold connectionLine.
  destruct (idToItem (items s) !! fromId c) as [a|] eqn:Ha; [|done].
  destruct (idToItem (items s) !! toId c) as [b|] eqn:Hb; [|done].
  intros [= <-]. simpl.
  apply idToItem_Some_elem in Ha as [Ha Hida], Hb as [Hb Hidb].
  exists a, b. split_and!; try done.
  intros Hcell%getItemCenterPx_inj.
  apply (reachable_noSelfEdge s Hs c Hc).
  rewrite <- Hida, <- Hidb.
  apply list_elem_of_lookup in Ha as [i Hi], Hb as [j Hj].
  assert (i = j) as -> by (eapply unique_cell_index; [apply Hwf|done..]).
  congruence.
Qed.

Lemma connection_line_endpoints_witness :
  ∃ a b, a ∈ items (run connectedTwoNodes init) ∧
         b ∈ items (run connectedTwoNodes init) ∧
         id a = 1 ∧ id b = 2 ∧
         {| px := 150; py := 150 |} = getItemCenterPx a ∧
         {| px := 350; py := 150 |} = getItemCenterPx b ∧
         {| px := 150; py := 150 |} ≠ {| px := 350; py := 150 |}.
Proof.
  apply (connection_line_endpoints (run connectedTwoNodes init)
           {| fromId := 1; toId := 2 |}
           {| lineFrom := {| px := 150; py := 150 |};
              lineTo := {| px := 350; py := 150 |} |}).
  - apply reachable_run. constructor.
  - refine (bool_decide_unpack _ _). vm_compute. exact I.
  - vm_compute. reflexivity.
Defined.

(** ** What a drop does to the ids and to the edges *)

Lemma drop_effect s raw rect cx cy :
  wf s →
  let s' := onDrop raw rect cx cy s in
  (connections s' = connections s ∧
   ∀ n, n ∈ id <$> items s → n ∈ id <$> items s') ∨
  (∃ occupant, occupant ∈ items s ∧
     connections s' = dropIncident (id occupant) (connections s) ∧
     ∀ n, n ∈ id <$> items s → n ≠ id occupant → n ∈ id <$> items s').
Proof.
  intros Hwf s'. subst s'. unfold onDrop.
  destruct raw as [[ty|dataId ty|]|]; auto;
    destruct (snapToCell rect cx cy) as [cell|]; auto.
  - destruct (findIndex (atCell cell) (items s)) as [k|] eqn:Hfind.
    + destruct (findIndex_Some _ _ _ Hfind) as (ex & Hex & Hat%atCell_true & _).
      rewrite (dropPalette_occupied ty cell s k ex) by done. simpl.
      right. exists ex. split_and!; [by eapply list_elem_of_lookup_2|done|].
      intros n Hn Hne. rewrite list_fmap_insert.
      apply (elem_of_insert_NoDup _ k (id ex)); [apply Hwf| |by right].
      by rewrite list_lookup_fmap, Hex.
    + rewrite dropPalette_free.
      * simpl. left. split; [done|]. intros n Hn.
        rewrite fmap_app. apply elem_of_app. by left.
      * intros it Hit. by apply atCell_false, (findIndex_None _ _ Hfind).
  - destruct (findIndex (hasId dataId) (items s)) as [i|] eqn:Hmov.
    2:{ unfold dropCanvas. rewrite Hmov. auto. }
    destruct (findIndex_Some _ _ _ Hmov) as (m & Hm & <-%hasId_true & _).
    assert (∀ ex (j : nat), items s !! j = Some ex → cellOf ex = cell → ex = m →
              ∀ it, it ∈ items s → cellOf it = cell → it = m) as Honly.
    { intros ex j Hex Hcell <- it [k Hk]%list_elem_of_lookup Hitc.
      assert (k = j) as -> by (eapply unique_cell_index; [apply Hwf|done..|congruence]).
      congruence. }
    destruct (findIndex (atCell cell) (items s)) as [j|] eqn:Hfind.
    + destruct (findIndex_Some _ _ _ Hfind) as (ex & Hex & Hat%atCell_true & _).
      destruct (decide (ex = m)) as [Heq|Hne].
      * rewrite (dropCanvas_plain cell s i m) by eauto. simpl.
        left. by rewrite fmap_id_alter_moveTo.
      * rewrite (dropCanvas_evict cell s i j m ex) by done. simpl.
        right. exists ex. split_and!; [by eapply list_elem_of_lookup_2|done|].
        intros n Hn Hnne. rewrite fmap_id_alter_moveTo, list_fmap_delete.
        apply (elem_of_delete_NoDup _ j (id ex)); [apply Hwf| |done].
        by rewrite list_lookup_fmap, Hex.
    + rewrite (dropCanvas_plain cell s i m); [| done..|].
      * simpl. left. by rewrite fmap_id_alter_moveTo.
      * intros it Hit Hitc%atCell_true.
        by rewrite (findIndex_None _ _ Hfind it Hit) in Hitc.
Qed.

Lemma click_items s i : items (onActivityClickAsTarget i s) = items s.
Proof.
  unfold onActivityClickAsTarget.
  destruct (truthy (pendingSourceId s)); simpl; [|done].
  destruct (pendingSourceId s) as [src|]; [|done].
  by destruct (i =? src).
Qed.

Lemma mouseMove_stores s rect cx cy :
  items (onMouseMove rect cx cy s) = items s ∧
  connections (onMouseMove rect cx cy s) = connections s.
Proof. unfold onMouseMove. by destruct (truthy (pendingSourceId s)). Qed.

Lemma mouseLeave_stores s :
  items (onMouseLeave s) = items s ∧
  connections (onMouseLeave s) = connections s.
Proof. unfold onMouseLeave. by destruct (truthy (pendingSourceId s)). Qed.

Lemma step_targetsExist s ev :
  wf s → enabled s ev = true → targetsExist s → targetsExist (step s ev).
Proof.
  intros Hwf Hen Hok. destruct ev as [raw rect cx cy|i|i|rect cx cy|]; simpl.
  - intros c Hc.
    destruct (drop_effect s raw rect cx cy Hwf)
      as [[Hconns Hids]|(occ & _ & Hconns & Hids)]; rewrite Hconns in Hc.
    + by apply Hids, Hok.
    + apply list_elem_of_filter in Hc as [[_ Hto] Hc]. by apply Hids; [apply Hok|].
  - done.
  - intros c Hc. rewrite click_items.
    apply (step_connections_origin s (ActivityClick i)) in Hc
      as [Hc|(src & i' & [= <-] & _ & _ & _ & ->)]; [by apply Hok|].
    simpl. by apply rendered_elem_of.
  - intros c. destruct (mouseMove_stores s rect cx cy) as [-> ->]. apply Hok.
  - intros c. destruct (mouseLeave_stores s) as [-> ->]. apply Hok.
Qed.

Lemma feasible_targetsExist evs s :
  wf s → targetsExist s → feasible evs s = true → targetsExist (run evs s).
Proof.
  revert s. induction evs as [|ev evs IH]; intros s Hwf Hok Hfeas; [done|].
  simpl in *. apply andb_true_iff in Hfeas as [Hen Hfeas].
  apply IH; [by apply step_wf|by apply step_targetsExist|done].
Qed.

(** X9 (targets always exist): after every event sequence the interface can
    deliver from the empty diagram, the [toId] of every edge is the id of a
    node in the node store. *)
Theorem feasible_targets_exist (evs : list Event) (c : Conn) :
  feasible evs init = true → c ∈ connections (run evs init) →
  toId c ∈ id <$> items (run evs init).
Proof.
  intros Hfeas. apply feasible_targetsExist; [apply init_wf| |done].
  by intros c' ?%elem_of_nil.
Qed.

Lemma feasible_targets_exist_witness :
  2 ∈ id <$> items (run armEvictCommit init).
Proof.
  apply (feasible_targets_exist armEvictCommit {| fromId := 1; toId := 2 |}).
  - reflexivity.
  - refine (bool_decide_unpack _ _). vm_compute. exact I.
Defined.

(** X10 (where edge validity is kept): from a reachable state whose edges
    all have both ends on the canvas, an event the interface can deliver
    leads to a state with the same property, provided the pending source, if
    there is one, is the id of a node on the canvas. *)
Theorem step_keeps_edges_valid (s : State) (ev : Event) (c : Conn) :
  reachable s →
  (∀ c', c' ∈ connections s → validEdge s c') →
  enabled s ev = true →
  (∀ src, pendingSourceId s = Some src → src ∈ id <$> items s) →
  c ∈ connections (step s ev) → validEdge (step s ev) c.
Proof.
  intros Hwf%reachable_wf Hvalid Hen Hsrc.
  destruct ev as [raw rect cx cy|i|i|rect cx cy|]; simpl.
  - intros Hc.
    destruct (drop_effect s raw rect cx cy Hwf)
      as [[Hconns Hids]|(occ & _ & Hconns & Hids)]; rewrite Hconns in Hc.
    + destruct (Hvalid c Hc). split; by apply Hids.
    + apply list_elem_of_filter in Hc as [[Hfrom Hto] Hc].
      destruct (Hvalid c Hc). split; by apply Hids.
  - apply Hvalid.
  - intros Hc. unfold validEdge. rewrite click_items.
    apply (step_connections_origin s (ActivityClick i)) in Hc
      as [Hc|(src & i' & [= <-] & Hpend & _ & _ & ->)]; [by apply Hvalid|].
    simpl. split; [by apply Hsrc|by apply rendered_elem_of].
  - unfold validEdge. destruct (mouseMove_stores s rect cx cy) as [-> ->].
    apply Hvalid.
  - unfold validEdge. destruct (mouseLeave_stores s) as [-> ->]. apply Hvalid.
Qed.

Lemma step_keeps_edges_valid_witness :
  validEdge (step (run connectedTwoNodes init) (paletteDropAt "Stop" 5 5))
    {| fromId := 1; toId := 2 |}.
Proof.
  apply (step_keeps_edges_valid (run connectedTwoNodes init)
           (paletteDropAt "Stop" 5 5)).
  - apply reachable_run. constructor.
  - intros c' Hc'. change (c' ∈ [ {| fromId := 1; toId := 2 |} ]) in Hc'.
    apply list_elem_of_singleton in Hc'. rewrite Hc'.
    split; refine (bool_decide_unpack _ _); vm_compute; exact I.
  - reflexivity.
  - intros src Hsrc. vm_compute in Hsrc. discriminate Hsrc.
  - refine (bool_decide_unpack _ _). vm_compute. exact I.
Defined.

(** X11 (the preview line): in a reachable state the dashed preview line is
    drawn exactly when a preview point is stored and the pending source is
    the id of a node on the canvas; it then runs from that node's centre to
    the preview point. *)
Theorem previewLine_spec (s : State) (ln : Line) :
  reachable s →
  previewLine s = Some ln ↔
  ∃ it, it ∈ items s ∧ pendingSourceId s = Some (id it) ∧
        previewPoint s = Some (lineTo ln) ∧
        lineFrom ln = getItemCenterPx it.
Proof.
  intros Hwf%reachable_wf. unfold previewLine. split.
  - destruct (truthy (pendingSourceId s)); [|done].
    destruct (previewPoint s) as [b|]; [|done].
    destruct (pendingSourceId s) as [src|]; [|done].
    destruct (idToItem (items s) !! src) as [it|] eqn:Hit; [|done].
    intros [= <-]. apply idToItem_Some_elem in Hit as [Hit <-].
    by exists it.
  - intros (it & Hit & -> & -> & Hfrom).
    pose proof (wf_below s Hwf it Hit) as Hpos. simpl.
    destruct (Z.eqb_spec (id it) 0) as [?|_]; [lia|]. simpl.
    rewrite idToItem_NoDup by (done || apply Hwf).
    destruct ln. simpl in *. by rewrite Hfrom.
Qed.

Lemma previewLine_spec_witness :
  previewLine (onMouseMove surfaceAtOrigin 400 90 (run armedTwoNodes init))
  = Some {| lineFrom := {| px := 150; py := 150 |};
            lineTo := {| px := 400; py := 90 |} |}.
Proof.
  apply (previewLine_spec
           (onMouseMove surfaceAtOrigin 400 90 (run armedTwoNodes init))).
  - apply (reachable_step _ (MouseMove surfaceAtOrigin 400 90)).
    apply reachable_run. constructor.
  - exists {| id := 1; type := "Start"; col := 1; row := 1 |}.
    split; [|split; [reflexivity|split; reflexivity]].
    refine (bool_decide_unpack _ _). vm_compute. exact I.
Defined.

(** ** The connection workflow, step by step *)

Lemma filter_idemp {A} (P : A → Prop) `{∀ x, Decision (P x)} (l : list A) :
  filter P (filter P l) = filter P l.
Proof.
  induction l as [|a l IH]; [done|].
  rewrite filter_cons. destruct (decide (P a)) as [Ha|Ha]; [|done].
  rewrite filter_cons, decide_True by done. by rewrite IH.
Qed.

Lemma commit_connections (s : State) (src t : Z) :
  src ≠ 0 → t ≠ src →
  run [StartHandleClick src; ActivityClick t] s
  = {| items := items s;
       connections := filter (λ c, fromId c ≠ src) (connections s)
                        ++ [ {| fromId := src; toId := t |} ];
       nextId := nextId s;
       pendingSourceId := None;
       previewPoint := None |}.
Proof.
  intros Hnz Hne. simpl. unfold onActivityClickAsTarget. simpl.
  destruct (Z.eqb_spec src 0) as [?|_]; [done|]. simpl.
  destruct (Z.eqb_spec t src) as [?|_]; done.
Qed.

(** X12 (commit, cancel and leave clear the preview): in a reachable state,
    after the pointer leaves the surface or after any click on an activity no
    preview point is stored; and a click on an activity while a source is
    pending always ends with no pending source. *)
Theorem preview_cleared (s : State) (i : Z) :
  reachable s →
  previewPoint (onMouseLeave s) = None ∧
  previewPoint (onActivityClickAsTarget i s) = None ∧
  (truthy (pendingSourceId s) = true →
   pendingSourceId (onActivityClickAsTarget i s) = None).
Proof.
  intros Hok%reachable_previewOk.
  assert (truthy (pendingSourceId s) = false → previewPoint s = None) as Hidle.
  { intros Hidle. destruct (previewPoint s) as [p|] eqn:Hp; [|done].
    destruct (Hok p Hp) as [Harmed _]. congruence. }
  unfold onMouseLeave, onActivityClickAsTarget.
  destruct (truthy (pendingSourceId s)) eqn:Harmed; simpl.
  - destruct (pendingSourceId s) as [src|]; [|done].
    by destruct (i =? src).
  - split_and!; auto. done.
Qed.

Lemma preview_cleared_witness :
  previewPoint (onMouseLeave
                  (onMouseMove surfaceAtOrigin 400 90 (run armedTwoNodes init)))
  = None.
Proof.
  apply (preview_cleared
           (onMouseMove surfaceAtOrigin 400 90 (run armedTwoNodes init)) 2).
  apply (reachable_step _ (MouseMove surfaceAtOrigin 400 90)).
  apply reachable_run. constructor.
Defined.

(** X13 (cancel on self-click): arming a node with a non-zero id and then
    clicking that same node leaves the node store, the edge store and the
    counter as they were and ends with no pending source and no preview
    point. *)
Theorem self_click_cancels (s : State) (n : Z) :
  n ≠ 0 →
  run [StartHandleClick n; ActivityClick n] s
  = {| items := items s;
       connections := connections s;
       nextId := nextId s;
       pendingSourceId := None;
       previewPoint := None |}.
Proof.
  intros Hnz. simpl. unfold onActivityClickAsTarget. simpl.
  destruct (Z.eqb_spec n 0) as [?|_]; [done|]. simpl.
  by rewrite Z.eqb_refl.
Qed.

Lemma self_click_cancels_witness :
  run [StartHandleClick 5; ActivityClick 5] threeNodes = threeNodes.
Proof. apply (self_click_cancels threeNodes 5). lia. Defined.

(** X14 (re-connecting replaces): connecting [src] to [t1] and then to [t2]
    ends in the same state as connecting [src] to [t2] directly; in
    particular making the same connection twice changes nothing the second
    time. *)
Theorem reconnect_replaces (s : State) (src t1 t2 : Z) :
  src ≠ 0 → t1 ≠ src → t2 ≠ src →
  run [StartHandleClick src; ActivityClick t1;
       StartHandleClick src; ActivityClick t2] s
  = run [StartHandleClick src; ActivityClick t2] s.
Proof.
  intros Hnz H1 H2.
  change (run [StartHandleClick src; ActivityClick t1;
               StartHandleClick src; ActivityClick t2] s)
    with (run [StartHandleClick src; ActivityClick t2]
            (run [StartHandleClick src; ActivityClick t1] s)).
  rewrite !commit_connections by done. simpl. f_equal.
  rewrite filter_app, filter_idemp.
  rewrite (filter_none _ [ {| fromId := src; toId := t1 |} ]).
  - by rewrite app_nil_r.
  - intros c ->%list_elem_of_singleton. simpl. by intros ?.
Qed.

Lemma reconnect_replaces_witness :
  connections (run [StartHandleClick 5; ActivityClick 3;
                    StartHandleClick 5; ActivityClick 7] threeNodes)
  = [ {| fromId := 7; toId := 5 |}; {| fromId := 5; toId := 7 |} ].
Proof.
  rewrite (reconnect_replaces threeNodes 5 3 7); [reflexivity|lia..].
Defined.

(** X15 (one armed handle): in a reachable state at most one position of the
    node store holds an item whose start handle is shown as armed. *)
Theorem isArmed_unique (s : State) (i j : nat) (a b : Item) :
  reachable s → items s !! i = Some a → items s !! j = Some b →
  isArmed s a = true → isArmed s b = true → i = j.
Proof.
  intros Hwf%reachable_wf Ha Hb. unfold isArmed.
  destruct (pendingSourceId s) as [src|]; [|done].
  intros Hia%Z.eqb_eq Hib%Z.eqb_eq.
  eapply unique_id_index; [apply Hwf|done..|congruence].
Qed.

Lemma isArmed_unique_witness : 0%nat = 0%nat.
Proof.
  apply (isArmed_unique (run armedTwoNodes init) 0 0
           {| id := 1; type := "Start"; col := 1; row := 1 |}
           {| id := 1; type := "Start"; col := 1; row := 1 |}).
  - apply reachable_run. constructor.
  - reflexivity.
  - reflexivity.
  - reflexivity.
  - reflexivity.
Defined.

(** ** The counter, the ids and the number of nodes *)

Lemma dropPalette_nextId ty cell s :
  nextId (dropPalette ty cell s) = nextId s + 1.
Proof.
  unfold dropPalette.
  destruct (findIndex (atCell cell) (items s)) as [k|] eqn:Hfind; [|done].
  destruct (findIndex_Some _ _ _ Hfind) as (ex & Hex & _). by rewrite Hex.
Qed.

Lemma step_nextId_mono s ev : nextId s ≤ nextId (step s ev).
Proof.
  destruct ev as [raw rect cx cy|i|i|rect cx cy|]; simpl.
  - unfold onDrop. destruct raw as [[ty|dataId ty|]|]; try done;
      destruct (snapToCell rect cx cy) as [cell|]; try done.
    + rewrite dropPalette_nextId. lia.
    + by destruct (dropCanvas_frame dataId cell s) as [-> _].
  - done.
  - unfold onActivityClickAsTarget.
    destruct (truthy (pendingSourceId s)); simpl; [|done].
    destruct (pendingSourceId s) as [src|]; [|done].
    by destruct (i =? src).
  - unfold onMouseMove. by destruct (truthy (pendingSourceId s)).
  - unfold onMouseLeave. by destruct (truthy (pendingSourceId s)).
Qed.

Lemma run_nextId_mono evs s : nextId s ≤ nextId (run evs s).
Proof.
  induction evs as [|ev evs IH] using rev_ind; [done|].
  rewrite run_snoc. pose proof (step_nextId_mono (run evs s) ev). lia.
Qed.




(** X16 (which drops are ignored): a palette drop returns the state
    unchanged exactly when the pointer is left of or above the surface; a
    drop with an empty or unparsable payload, or with a payload from neither
    the palette nor the canvas, always does; and so does every drop left of
    or above the surface. *)
Theorem drop_ignored (s : State) (rect : Rect) (clientX clientY : Z) (ty : string) :
  (onDrop (Some (FromPalette ty)) rect clientX clientY s = s ↔
   clientX < left rect ∨ clientY < top rect) ∧
  onDrop None rect clientX clientY s = s ∧
  onDrop (Some OtherData) rect clientX clientY s = s ∧
  (clientX < left rect ∨ clientY < top rect →
   ∀ raw, onDrop raw rect clientX clientY s = s).
Proof.
  assert (snapToCell rect clientX clientY = None ↔
          clientX < left rect ∨ clientY < top rect) as Hsnap.
  { unfold snapToCell.
    destruct (Z.ltb_spec (clientX - left rect) 0),
             (Z.ltb_spec (clientY - top rect) 0); simpl;
      split; (done || lia). }
  split_and!.
  - unfold onDrop. rewrite <- Hsnap.
    destruct (snapToCell rect clientX clientY) as [cell|]; [|done].
    split; [|done]. intros Heq.
    pose proof (dropPalette_nextId ty cell s) as Hn. rewrite Heq in Hn. lia.
  - done.
  - unfold onDrop. by destruct (snapToCell rect clientX clientY).
  - intros Hout%Hsnap raw. unfold onDrop. rewrite Hout. by destruct raw.
Qed.

(** X17 (ids are never reused): along any event sequence from a reachable
    state the counter never decreases, and a node that carries the id of a
    node of the starting state is of the same type: it is that node, possibly
    moved, never a new one. *)
Theorem id_never_reused (s : State) (evs : list Event) (it it' : Item) :
  reachable s → it ∈ items s → it' ∈ items (run evs s) → id it' = id it →
  type it' = type it ∧ nextId s ≤ nextId (run evs s).
Proof.
  intros Hwf%reachable_wf Hit Hit' Hid. split; [|apply run_nextId_mono].
  revert it' Hit' Hid. induction evs as [|ev evs IH] using rev_ind; intros it' Hit' Hid.
  - simpl in Hit'. apply list_elem_of_lookup in Hit as [i Hi], Hit' as [j Hj].
    assert (j = i) as -> by (eapply unique_id_index; [apply Hwf|done..]).
    congruence.
  - rewrite run_snoc in Hit'.
    apply step_items_origin in Hit'
      as [Hin|[(m & raw & rect & cx & cy & cell & _ & _ & Hm & ->)
              |(ty & rect & cx & cy & cell & _ & _ & ->)]].
    + by apply IH.
    + simpl in *. by apply IH.
    + simpl in Hid. pose proof (run_nextId_mono evs s).
      pose proof (wf_below s Hwf it Hit). lia.
Qed.

Lemma id_never_reused_witness :
  type {| id := 2; type := "Recv"; col := 1; row := 1 |} = "Recv" ∧
  nextId (run armedTwoNodes init)
  ≤ nextId (run [canvasDropAt 2 "Recv" 1 1] (run armedTwoNodes init)).
Proof.
  apply (id_never_reused (run armedTwoNodes init) [canvasDropAt 2 "Recv" 1 1]
           {| id := 2; type := "Recv"; col := 3; row := 1 |}
           {| id := 2; type := "Recv"; col := 1; row := 1 |}).
  - apply reachable_run. constructor.
  - refine (bool_decide_unpack _ _). vm_compute. exact I.
  - refine (bool_decide_unpack _ _). vm_compute. exact I.
  - reflexivity.
Defined.



(** ** Types and emoji *)

Lemma toolbox_type ty :
  FromPalette ty ∈ toolboxPayloads → ty ∈ fst <$> ACTIVITIES.
Proof.
  unfold toolboxPayloads. intros (a & [= ->] & Ha)%list_elem_of_fmap.
  by apply list_elem_of_fmap_2.
Qed.

Lemma run_known_types evs s :
  (∀ it, it ∈ items s → type it ∈ fst <$> ACTIVITIES) →
  Forall fromToolbox evs →
  ∀ it, it ∈ items (run evs s) → type it ∈ fst <$> ACTIVITIES.
Proof.
  intros Hs. induction evs as [|ev evs IH] using rev_ind; intros Hevs; [done|].
  apply Forall_app in Hevs as [Hevs Hev]. apply Forall_inv in Hev.
  intros it. rewrite run_snoc. intros Hit.
  apply step_items_origin in Hit
    as [Hin|[(m & raw & rect & cx & cy & cell & _ & _ & Hm & ->)
            |(ty & rect & cx & cy & cell & -> & _ & ->)]].
  - by apply IH.
  - simpl. by apply IH.
  - simpl. apply toolbox_type, Hev.
Qed.

(** X19 (every activity has its emoji): when every palette drop of an event
    sequence carries one of the toolbox's payloads, each node of the
    resulting state is shown with the emoji that [ACTIVITIES] lists for its
    type, never with the fallback. *)
Theorem emoji_from_table (evs : list Event) (it : Item) :
  Forall fromToolbox evs → it ∈ items (run evs init) →
  (type it, itemEmoji it) ∈ ACTIVITIES ∧ itemEmoji it ≠ "❓".
Proof.
  intros Hevs Hit.
  assert (type it ∈ fst <$> ACTIVITIES) as Hty.
  { eapply run_known_types; [|done..]. by intros ? ?%elem_of_nil. }
  destruct it as [n ty c r]. simpl in Hty. unfold itemEmoji. simpl.
  repeat (apply elem_of_cons in Hty as [->|Hty];
          [split; [refine (bool_decide_unpack _ _); vm_compute; exact I
                  |vm_compute; discriminate]|]).
  by apply elem_of_nil in Hty.
Qed.

Lemma emoji_from_table_witness :
  ("Recv", itemEmoji {| id := 2; type := "Recv"; col := 3; row := 1 |}) ∈ ACTIVITIES.
Proof.
  apply (emoji_from_table armedTwoNodes
           {| id := 2; type := "Recv"; col := 3; row := 1 |}).
  - repeat constructor; refine (bool_decide_unpack _ _); vm_compute; exact I.
  - refine (bool_decide_unpack _ _). vm_compute. exact I.
Defined.

(** ** Moving a node away and back *)

Lemma moveTo_back cell m : moveTo (cellOf m) (moveTo cell m) = m.
Proof. by destruct m. Qed.

(** X20 (move and move back): in a reachable state, moving a node to a free
    cell and then dropping it on the cell it came from restores the state. *)
Theorem move_and_back (s : State) (m : Item) (ty ty' : string)
    (rect rect' : Rect) (cx cy cx' cy' : Z) (cell : Cell) :
  reachable s → m ∈ items s →
  snapToCell rect cx cy = Some cell →
  (∀ it, it ∈ items s → cellOf it ≠ cell) →
  snapToCell rect' cx' cy' = Some (cellOf m) →
  onDrop (Some (FromCanvas (id m) ty')) rect' cx' cy'
    (onDrop (Some (FromCanvas (id m) ty)) rect cx cy s)
  = s.
Proof.
  intros Hwf%reachable_wf Hm Hsnap Hfree Hsnap'.
  pose proof Hm as [i Hi]%list_elem_of_lookup.
  unfold onDrop. rewrite Hsnap, Hsnap'.
  pose proof (dropCanvas_wf (id m) cell s Hwf) as Hwf1.
  rewrite (dropCanvas_plain cell s i m) in * by (done || (intros it Hit Hc; by destruct (Hfree it Hit))).
  change (id m) with (id (moveTo cell m)).
  rewrite (dropCanvas_plain (cellOf m) _ i (moveTo cell m) Hwf1); simpl.
  - rewrite list_alter_alter_eq, (alter_as_insert _ _ _ _ Hi). simpl.
    rewrite moveTo_back, list_insert_id by done. by destruct s.
  - by rewrite list_lookup_alter_eq, Hi.
  - intros it Hit Hc.
    apply (elem_of_alter_NoDup (moveTo cell) (items s) i m it
             (wf_NoDup_items s Hwf) Hi) in Hit as [->|[Hit Hne]]; [done|].
    destruct Hne. apply list_elem_of_lookup in Hit as [j Hj].
    assert (j = i) as -> by (eapply unique_cell_index; [apply Hwf|done..]).
    congruence.
Qed.

Lemma move_and_back_witness :
  onDrop (Some (FromCanvas 2 "Recv")) surfaceAtOrigin 350 150
    (onDrop (Some (FromCanvas 2 "Recv")) surfaceAtOrigin 550 550
       (run armedTwoNodes init))
  = run armedTwoNodes init.
Proof.
  apply (move_and_back (run armedTwoNodes init)
           {| id := 2; type := "Recv"; col := 3; row := 1 |}
           "Recv" "Recv" surfaceAtOrigin surfaceAtOrigin 550 550 350 150
           {| ccol := 5; crow := 5 |}).
  - apply reachable_run. constructor.
  - refine (bool_decide_unpack _ _). vm_compute. exact I.
  - reflexivity.
  - intros it Hit.
    change (it ∈ [ {| id := 1; type := "Start"; col := 1; row := 1 |};
                   {| id := 2; type := "Recv"; col := 3; row := 1 |} ]) in Hit.
    apply elem_of_cons in Hit as [->|Hit]; [discriminate|].
    apply list_elem_of_singleton in Hit as ->. discriminate.
  - reflexivity.
Defined.

(** ** What each kind of event leaves alone *)

(** X21 (frames): a drop never changes the pending source or the preview
    point, so a source stays armed across placements; the events of the
    connection workflow never change the node store or the counter, and
    among them only a click on an activity can change the edge store. *)
Theorem event_frames (s : State) (ev : Event) :
  (isPlacement ev = true →
   pendingSourceId (step s ev) = pendingSourceId s ∧
   previewPoint (step s ev) = previewPoint s) ∧
  (isPlacement ev = false →
   items (step s ev) = items s ∧ nextId (step s ev) = nextId s ∧
   ((∀ i, ev ≠ ActivityClick i) → connections (step s ev) = connections s)).
Proof.
  destruct ev as [raw rect cx cy|i|i|rect cx cy|]; simpl; (split; [|try done]);
    try done.
  - intros _. unfold onDrop. destruct raw as [[ty|dataId ty|]|]; try done;
      destruct (snapToCell rect cx cy) as [cell|]; try done.
    + unfold dropPalette. destruct (findIndex _ _) as [k|]; [|done].
      by destruct (items s !! k).
    + by destruct (dropCanvas_frame dataId cell s) as (_ & -> & ->).
  - intros _. rewrite click_items. split_and!; [done| |by intros H; destruct (H i)].
    unfold onActivityClickAsTarget.
    destruct (truthy (pendingSourceId s)); simpl; [|done].
    destruct (pendingSourceId s) as [src|]; [|done].
    by destruct (i =? src).
  - intros _. unfold onMouseMove. by destruct (truthy (pendingSourceId s)).
  - intros _. unfold onMouseLeave. by destruct (truthy (pendingSourceId s)).
Qed.

(** X22 (edges only come from commits): an edge of the next state that was
    not in the edge store before can only stem from a click on the activity
    with its [toId], made while its [fromId] was the pending source, was not
    zero and differed from the clicked id. *)
Theorem new_edge_origin (s : State) (ev : Event) (c : Conn) :
  c ∈ connections (step s ev) → c ∉ connections s →
  ev = ActivityClick (toId c) ∧ pendingSourceId s = Some (fromId c) ∧
  fromId c ≠ 0 ∧ toId c ≠ fromId c.
Proof.
  intros [Hold|(src & i & -> & Hsrc & Hnz & Hne & ->)]%step_connections_origin Hnew;
    [done|].
  by simpl.
Qed.

Lemma new_edge_origin_witness :
  ActivityClick 2 = ActivityClick 2 ∧
  pendingSourceId (run armedTwoNodes init) = Some 1 ∧ (1 : Z) ≠ 0 ∧ (2 : Z) ≠ 1.
Proof.
  apply (new_edge_origin (run armedTwoNodes init) (ActivityClick 2)
           {| fromId := 1; toId := 2 |}).
  - refine (bool_decide_unpack _ _). vm_compute. exact I.
  - refine (bool_decide_unpack (_ ∉ _) _). vm_compute. exact I.
Defined.
